(** * Channel-based link endpoint (tcpip/link/channel/channel.go)

    A shallow embedding of package [channel]: the endpoint stores outbound
    packets in a bounded Go channel and hands inbound packets to the attached
    network dispatcher.  Every method is a computation over the endpoint the
    receiver points to; a computation returns, blocks, panics or (for the
    unbounded loop of [Drain]) exhausts its fuel.  The development is about one
    thread of control calling the methods one after the other. *)

From Stdlib Require Import ZArith List Bool Arith Lia.
From Stdlib Require String.
Import ListNotations String.StringSyntax.
Local Open Scope string_scope.
Local Open Scope Z_scope.

Abbreviation string := String.string.

(** ** Go's [int] (64-bit targets) *)

Definition int_bits : Z := 64.
Definition max_int : Z := 2 ^ (int_bits - 1) - 1.
Definition min_int : Z := - 2 ^ (int_bits - 1).

(** Two's complement wrap-around of a mathematical integer into [int]. *)
Definition wrap_int (z : Z) : Z :=
  (z + 2 ^ (int_bits - 1)) mod 2 ^ int_bits - 2 ^ (int_bits - 1).

Definition in_int (z : Z) : Prop := min_int <= z <= max_int.

(** ** The outcome of a call *)

Inductive outcome (W A : Type) : Type :=
| Done (a : A) (w : W)      (* the call returns [a] and leaves the world [w] *)
| Blocked                   (* the goroutine parks and nothing wakes it up *)
| Panicked (msg : string)   (* a run-time panic or fatal error *)
| OutOfFuel.                (* the loop was still running when fuel ran out *)

Arguments Done {W A} a w.
Arguments Blocked {W A}.
Arguments Panicked {W A} msg.
Arguments OutOfFuel {W A}.

Section Channel.

(** Types of packages [stack] and [buffer] that the endpoint only stores and
    forwards.  [Prependable_zero] is the zero value of [buffer.Prependable]. *)
Context {Route stack_GSO Prependable NetworkDispatcher : Type}.
Variable Prependable_zero : Prependable.

(** [stack.CapabilityHardwareGSO], a constant of package [stack]. *)
Variable CapabilityHardwareGSO : Z.

(** ** Data of packages [tcpip], [buffer] and [stack] *)

Definition LinkAddress := string.          (* type LinkAddress string *)
Definition NetworkProtocolNumber := Z.     (* uint32 *)
Definition View := list Byte.byte.         (* type View []byte *)

Record VectorisedView := mkVectorisedView {
  views : list View;
  size : Z
}.

(** [tcpip.PacketBuffer], with the two fields the endpoint names. *)
Record PacketBuffer := mkPacketBuffer {
  Data : VectorisedView;
  Header : Prependable
}.

Record PacketDescriptor := mkPacketDescriptor {
  Hdr : Prependable;
  Off : Z;
  Size : Z
}.

(** [*tcpip.Error]: the one error value of package [tcpip] the endpoint
    returns; [nil] is [None]. *)
Inductive Error := ErrBadLinkEndpoint.

(** Modelled from the spec: package [buffer] is not among the sources.
    [ToView] flattens the segments of a vectorised view into one contiguous
    view; these are its bytes, up to its length. *)
Definition ToView (vv : VectorisedView) : View := concat (views vv).

(** A Go slice has a capacity besides its length, and a slice expression
    reaches up to the capacity.  [View] keeps the bytes up to the length;
    what lies behind them is with package [buffer] and the caller's slices,
    neither among the sources: [spare_of payload] is the bytes of the backing
    array between the length and the capacity of the view that
    [payload.ToView()] returns. *)
Variable spare_of : VectorisedView -> list Byte.byte.

(** Modelled from the spec: package [buffer] is not among the sources.
    [NewViewFromBytes] copies the bytes into a fresh view. *)
Definition NewViewFromBytes (b : list Byte.byte) : View := b.

(** Modelled from the spec: package [buffer] is not among the sources.
    [ToVectorisedView] wraps one view as a vectorised view of its length. *)
Definition ToVectorisedView (v : View) : VectorisedView :=
  {| views := [v]; size := Z.of_nat (length v) |}.

(** The slice expression [s[lo:hi]] on a slice [s] whose backing array, up to
    the capacity of [s], holds the bytes [v]: defined when
    [0 <= lo <= hi <= cap(s)], whatever the length of [s]. *)
Definition slice (v : list Byte.byte) (lo hi : Z) : option View :=
  if (0 <=? lo) && (lo <=? hi) && (hi <=? Z.of_nat (length v))
  then Some (firstn (Z.to_nat (hi - lo)) (skipn (Z.to_nat lo) v))
  else None.

(** ** The endpoint *)

(** PacketInfo holds all the information about an outbound packet.  Its field
    [GSO] is [PktGSO] here, [GSO] being the endpoint's flag. *)
Record PacketInfo := mkPacketInfo {
  Pkt : PacketBuffer;
  Proto : NetworkProtocolNumber;
  PktGSO : option stack_GSO
}.

(** A buffered channel [chan PacketInfo]. *)
Record chan := mkChan {
  chan_cap : nat;
  chan_buf : list PacketInfo;
  chan_closed : bool
}.

(** [sync.RWMutex]: one writer or any number of readers. *)
Record RWMutex := mkRWMutex {
  writer : bool;
  readers : nat
}.

Record Endpoint := mkEndpoint {
  dispatcher : option NetworkDispatcher;
  mtu : Z;
  linkAddr : LinkAddress;
  GSO : bool;
  closed : bool;
  mu : RWMutex;
  ch : chan
}.

(** One call of [DeliverNetworkPacket] on a dispatcher, with its arguments;
    [call_linkEP] is the endpoint passed as [linkEP], as it is at the call. *)
Record DeliverCall := mkDeliverCall {
  call_dispatcher : NetworkDispatcher;
  call_linkEP : Endpoint;
  call_remote : LinkAddress;
  call_local : LinkAddress;
  call_protocol : NetworkProtocolNumber;
  call_pkt : PacketBuffer
}.

(** The world a method runs in: the endpoint behind the receiver and the
    calls made on dispatchers so far, oldest first. *)
Record World := mkWorld {
  self : Endpoint;
  delivered : list DeliverCall
}.

(** ** The monad of method bodies *)

Definition M (A : Type) : Type := World -> outcome World A.

Definition ret {A} (a : A) : M A := fun w => Done a w.

Definition bind {A B} (m : M A) (k : A -> M B) : M B :=
  fun w =>
    match m w with
    | Done a w' => k a w'
    | Blocked => Blocked
    | Panicked msg => Panicked msg
    | OutOfFuel => OutOfFuel
    end.

Notation "x <- m ;; k" := (bind m (fun x => k))
  (at level 100, m at next level, right associativity).
Notation "m ;;; k" := (bind m (fun _ => k))
  (at level 100, right associativity).

Definition panic {A} (msg : string) : M A := fun _ => Panicked msg.
Definition block {A} : M A := fun _ => Blocked.

Definition get : M Endpoint := fun w => Done (self w) w.

Definition put (e : Endpoint) : M unit :=
  fun w => Done tt {| self := e; delivered := delivered w |}.

(** [defer cleanup] before [body]: the deferred call runs when the body
    returns.  A panicking body stays a panic. *)
Definition defer {A} (cleanup : M unit) (body : M A) : M A :=
  a <- body ;; cleanup ;;; ret a.

(** *** Field updates *)

Definition set_dispatcher (d : option NetworkDispatcher) (e : Endpoint) :=
  mkEndpoint d (mtu e) (linkAddr e) (GSO e) (closed e) (mu e) (ch e).
Definition set_closed (b : bool) (e : Endpoint) :=
  mkEndpoint (dispatcher e) (mtu e) (linkAddr e) (GSO e) b (mu e) (ch e).
Definition set_mu (m : RWMutex) (e : Endpoint) :=
  mkEndpoint (dispatcher e) (mtu e) (linkAddr e) (GSO e) (closed e) m (ch e).
Definition set_ch (c : chan) (e : Endpoint) :=
  mkEndpoint (dispatcher e) (mtu e) (linkAddr e) (GSO e) (closed e) (mu e) c.
Definition set_GSO (b : bool) (e : Endpoint) :=
  mkEndpoint (dispatcher e) (mtu e) (linkAddr e) b (closed e) (mu e) (ch e).
Definition set_buf (b : list PacketInfo) (c : chan) :=
  mkChan (chan_cap c) b (chan_closed c).
Definition set_chan_closed (b : bool) (c : chan) :=
  mkChan (chan_cap c) (chan_buf c) b.

(** *** sync.RWMutex *)

Definition RLock : M unit :=
  e <- get ;;
  if writer (mu e) then block
  else put (set_mu (mkRWMutex false (S (readers (mu e)))) e).

Definition RUnlock : M unit :=
  e <- get ;;
  match readers (mu e) with
  | O => panic "sync: RUnlock of unlocked RWMutex"
  | S n => put (set_mu (mkRWMutex (writer (mu e)) n) e)
  end.

Definition Lock : M unit :=
  e <- get ;;
  if writer (mu e) then block
  else match readers (mu e) with
       | O => put (set_mu (mkRWMutex true O) e)
       | S _ => block
       end.

Definition Unlock : M unit :=
  e <- get ;;
  if writer (mu e) then put (set_mu (mkRWMutex false (readers (mu e))) e)
  else panic "sync: Unlock of unlocked RWMutex".

(** *** Channel operations *)

(** What a receive yields: a queued value, or the zero value with [ok = false]
    once the channel is closed and empty. *)
Inductive received :=
| Value (p : PacketInfo)
| ClosedEmpty.

(** [close(e.ch)] *)
Definition close_ch : M unit :=
  e <- get ;;
  if chan_closed (ch e) then panic "close of closed channel"
  else put (set_ch (set_chan_closed true (ch e)) e).

(** [select { case e.ch <- p: ...; default: ... }]: [true] when the send case
    ran.  With no receiver parked on the channel the send can proceed only
    into a free buffer slot. *)
Definition select_send (p : PacketInfo) : M bool :=
  e <- get ;;
  if chan_closed (ch e) then panic "send on closed channel"
  else if (length (chan_buf (ch e)) <? chan_cap (ch e))%nat
       then put (set_ch (set_buf (chan_buf (ch e) ++ [p]) (ch e)) e) ;;;
            ret true
       else ret false.

(** [select { case <-e.ch: ...; default: ... }]: [None] when the default case
    ran. *)
Definition select_recv : M (option received) :=
  e <- get ;;
  match chan_buf (ch e) with
  | p :: rest =>
      put (set_ch (set_buf rest (ch e)) e) ;;;
      ret (Some (Value p))
  | [] => if chan_closed (ch e) then ret (Some ClosedEmpty) else ret None
  end.

(** [<-e.ch], the blocking receive. *)
Definition recv : M received :=
  e <- get ;;
  match chan_buf (ch e) with
  | p :: rest =>
      put (set_ch (set_buf rest (ch e)) e) ;;;
      ret (Value p)
  | [] => if chan_closed (ch e) then ret ClosedEmpty else block
  end.

(** [d.DeliverNetworkPacket(linkEP, remote, local, protocol, pkt)]: the
    dispatcher is outside the package; the call is recorded. *)
Definition DeliverNetworkPacket (d : option NetworkDispatcher)
    (remote local : LinkAddress) (protocol : NetworkProtocolNumber)
    (pkt : PacketBuffer) : M unit :=
  match d with
  | None => panic "invalid memory address or nil pointer dereference"
  | Some d' =>
      fun w =>
        Done tt {| self := self w;
                   delivered := delivered w ++
                     [mkDeliverCall d' (self w) remote local protocol pkt] |}
  end.

(** ** The methods of [Endpoint] *)

(** New creates a new channel endpoint.  [make] panics on a negative size;
    it also panics on a size whose buffer the allocator cannot give, a limit
    of the Go runtime that is left out here: where the code's New returns,
    this one returns the same. *)
Definition New (size : Z) (mtu : Z) (linkAddr : LinkAddress)
  : outcome World unit :=
  if size <? 0 then Panicked "makechan: size out of range"
  else Done tt
    {| self := {| dispatcher := None;
                  mtu := mtu;
                  linkAddr := linkAddr;
                  GSO := false;
                  closed := false;
                  mu := mkRWMutex false O;
                  ch := mkChan (Z.to_nat size) [] false |};
       delivered := [] |}.

(** Drain removes all outbound packets from the channel and counts them. *)
Fixpoint Drain_loop (fuel : nat) (c : Z) : M Z :=
  match fuel with
  | O => fun _ => OutOfFuel
  | S fuel' =>
      r <- select_recv ;;
      match r with
      | Some _ => Drain_loop fuel' (wrap_int (c + 1))
      | None => ret c
      end
  end.

Definition Drain (fuel : nat) : M Z := Drain_loop fuel 0.

Definition Read : M (option PacketInfo * option string) :=
  r <- recv ;;
  match r with
  | ClosedEmpty => ret (None, Some "link channel closed")
  | Value pkgInfo => ret (Some pkgInfo, None)
  end.

Definition Close : M unit :=
  Lock ;;;
  defer Unlock
    (e <- get ;;
     if negb (closed e)
     then close_ch ;;;
          e' <- get ;;
          put (set_closed true e')
     else ret tt).

(** InjectLinkAddr injects an inbound packet with a remote link address. *)
Definition InjectLinkAddr (protocol : NetworkProtocolNumber)
    (remote : LinkAddress) (pkt : PacketBuffer) : M unit :=
  RLock ;;;
  defer RUnlock
    (e <- get ;;
     if closed e then ret tt
     else DeliverNetworkPacket (dispatcher e) remote "" protocol pkt).

(** InjectInbound injects an inbound packet. *)
Definition InjectInbound (protocol : NetworkProtocolNumber)
    (pkt : PacketBuffer) : M unit :=
  InjectLinkAddr protocol "" pkt.

(** Attach saves the stack network-layer dispatcher for use later when
    packets are injected. *)
Definition Attach (d : option NetworkDispatcher) : M unit :=
  e <- get ;; put (set_dispatcher d e).

Definition IsAttached (e : Endpoint) : bool :=
  match dispatcher e with Some _ => true | None => false end.

Definition MTU (e : Endpoint) : Z := mtu e.

Definition Capabilities (e : Endpoint) : Z :=
  let caps := 0 in
  let caps := if GSO e then Z.lor caps CapabilityHardwareGSO else caps in
  caps.

Definition GSOMaxSize (e : Endpoint) : Z := Z.shiftl 1 15.

Definition MaxHeaderLength (e : Endpoint) : Z := 0.

(** LinkAddress returns the link address of this endpoint (the method; the
    name [LinkAddress] is the type's). *)
Definition LinkAddress_of (e : Endpoint) : LinkAddress := linkAddr e.

(** WritePacket stores outbound packets into the channel. *)
Definition WritePacket (r : option Route) (gso : option stack_GSO)
    (protocol : NetworkProtocolNumber) (pkt : PacketBuffer)
  : M (option Error) :=
  RLock ;;;
  defer RUnlock
    (e <- get ;;
     if closed e then ret (Some ErrBadLinkEndpoint)
     else
       let p := {| Pkt := pkt; Proto := protocol; PktGSO := gso |} in
       select_send p ;;;
       ret None).

(** The [packetLoop] of WritePackets over the remaining descriptors; [n]
    counts the packets queued so far.  The loop only slices [payloadView]:
    it is given as the bytes a slice expression on it reaches, those up to
    its capacity. *)
Fixpoint packetLoop (gso : option stack_GSO) (payloadView : list Byte.byte)
    (protocol : NetworkProtocolNumber) (hdrs : list PacketDescriptor) (n : Z)
  : M Z :=
  match hdrs with
  | [] => ret n
  | hdr :: hdrs' =>
      let off := Off hdr in
      let size := Size hdr in
      match slice payloadView off (wrap_int (off + size)) with
      | None => panic "slice bounds out of range"
      | Some bytes =>
          let p := {| Pkt := {| Header := Hdr hdr;
                                Data := ToVectorisedView (NewViewFromBytes bytes) |};
                      Proto := protocol;
                      PktGSO := gso |} in
          sent <- select_send p ;;
          if sent : bool
          then packetLoop gso payloadView protocol hdrs' (wrap_int (n + 1))
          else ret n
      end
  end.

(** WritePackets stores outbound packets into the channel. *)
Definition WritePackets (r : option Route) (gso : option stack_GSO)
    (hdrs : list PacketDescriptor) (payload : VectorisedView)
    (protocol : NetworkProtocolNumber) : M (Z * option Error) :=
  RLock ;;;
  defer RUnlock
    (e <- get ;;
     if closed e then ret (0, Some ErrBadLinkEndpoint)
     else
       let payloadView := ToView payload ++ spare_of payload in
       n <- packetLoop gso payloadView protocol hdrs 0 ;;
       ret (n, None)).

(** WriteRawPacket implements stack.LinkEndpoint.WriteRawPacket. *)
Definition WriteRawPacket (vv : VectorisedView) : M (option Error) :=
  RLock ;;;
  defer RUnlock
    (e <- get ;;
     if closed e then ret (Some ErrBadLinkEndpoint)
     else
       let p := {| Pkt := {| Data := vv; Header := Prependable_zero |};
                   Proto := 0;
                   PktGSO := None |} in
       select_send p ;;;
       ret None).

(** Wait implements stack.LinkEndpoint.Wait. *)
Definition Wait : M unit := ret tt.

(** ** Sequences of calls *)

(** One call of a method of the endpoint, with its arguments. *)
Inductive call :=
| CallDrain (fuel : nat)
| CallRead
| CallClose
| CallInjectInbound (protocol : NetworkProtocolNumber) (pkt : PacketBuffer)
| CallInjectLinkAddr (protocol : NetworkProtocolNumber)
    (remote : LinkAddress) (pkt : PacketBuffer)
| CallAttach (d : option NetworkDispatcher)
| CallIsAttached
| CallMTU
| CallCapabilities
| CallGSOMaxSize
| CallMaxHeaderLength
| CallLinkAddress
| CallWritePacket (r : option Route) (gso : option stack_GSO)
    (protocol : NetworkProtocolNumber) (pkt : PacketBuffer)
| CallWritePackets (r : option Route) (gso : option stack_GSO)
    (hdrs : list PacketDescriptor) (payload : VectorisedView)
    (protocol : NetworkProtocolNumber)
| CallWriteRawPacket (vv : VectorisedView)
| CallWait.

(** The call is made and its results are dropped. *)
Definition perform (c : call) : M unit :=
  match c with
  | CallDrain fuel => Drain fuel ;;; ret tt
  | CallRead => Read ;;; ret tt
  | CallClose => Close
  | CallInjectInbound protocol pkt => InjectInbound protocol pkt
  | CallInjectLinkAddr protocol remote pkt => InjectLinkAddr protocol remote pkt
  | CallAttach d => Attach d
  | CallIsAttached | CallMTU | CallCapabilities | CallGSOMaxSize
  | CallMaxHeaderLength | CallLinkAddress => ret tt
  | CallWritePacket r gso protocol pkt => WritePacket r gso protocol pkt ;;; ret tt
  | CallWritePackets r gso hdrs payload protocol =>
      WritePackets r gso hdrs payload protocol ;;; ret tt
  | CallWriteRawPacket vv => WriteRawPacket vv ;;; ret tt
  | CallWait => Wait
  end.

Fixpoint perform_all (cs : list call) : M unit :=
  match cs with
  | [] => ret tt
  | c :: cs' => perform c ;;; perform_all cs'
  end.

(** The field [GSO] is exported: [AssignGSO b] is the assignment
    [e.GSO = b] of a caller outside the package. *)
Definition AssignGSO (b : bool) : M unit :=
  e <- get ;; put (set_GSO b e).

(** What a caller does with an endpoint: it calls a method or assigns the
    exported field. *)
Inductive step :=
| StepCall (c : call)
| StepAssignGSO (b : bool).

Definition take (s : step) : M unit :=
  match s with
  | StepCall c => perform c
  | StepAssignGSO b => AssignGSO b
  end.

Fixpoint take_all (ss : list step) : M unit :=
  match ss with
  | [] => ret tt
  | s :: ss' => take s ;;; take_all ss'
  end.

(** The value of the field [GSO] after the steps, [g] being its value
    before: that of the last assignment, if there is one. *)
Fixpoint GSO_after (ss : list step) (g : bool) : bool :=
  match ss with
  | [] => g
  | StepCall _ :: ss' => GSO_after ss' g
  | StepAssignGSO b :: ss' => GSO_after ss' b
  end.

(** The arguments of one WritePacket call. *)
Record WriteArgs := mkWriteArgs {
  arg_route : option Route;
  arg_gso : option stack_GSO;
  arg_protocol : NetworkProtocolNumber;
  arg_pkt : PacketBuffer
}.

(** Successive WritePacket calls, with what each returned. *)
Fixpoint write_all (args : list WriteArgs) : M (list (option Error)) :=
  match args with
  | [] => ret []
  | a :: args' =>
      err <- WritePacket (arg_route a) (arg_gso a) (arg_protocol a) (arg_pkt a) ;;
      errs <- write_all args' ;;
      ret (err :: errs)
  end.

(** The record WritePacket builds from its arguments. *)
Definition info_of (a : WriteArgs) : PacketInfo :=
  {| Pkt := arg_pkt a; Proto := arg_protocol a; PktGSO := arg_gso a |}.

(** Successive Read calls, with what each returned. *)
Fixpoint read_all (n : nat) : M (list (option PacketInfo * option string)) :=
  match n with
  | O => ret []
  | S n' =>
      r <- Read ;;
      rs <- read_all n' ;;
      ret (r :: rs)
  end.

(** ** Predicates the statements use *)

(** Between two calls of one thread nobody holds the mutex, and the channel
    is closed exactly when the flag says so. *)
Definition consistent (e : Endpoint) : Prop :=
  mu e = mkRWMutex false O /\ chan_closed (ch e) = closed e.

(** The buffer fits the capacity, and the capacity is an [int]. *)
Definition bounded (e : Endpoint) : Prop :=
  (length (chan_buf (ch e)) <= chan_cap (ch e))%nat /\
  Z.of_nat (chan_cap (ch e)) <= max_int.

Definition wf (e : Endpoint) : Prop := consistent e /\ bounded e.

(** Free slots of the queue. *)
Definition room (e : Endpoint) : nat :=
  (chan_cap (ch e) - length (chan_buf (ch e)))%nat.

(** What no method undoes: the fields fixed at construction stay, and what
    was closed stays closed. *)
Definition stable (e e' : Endpoint) : Prop :=
  GSO e' = GSO e /\ mtu e' = mtu e /\ linkAddr e' = linkAddr e /\
  chan_cap (ch e') = chan_cap (ch e) /\
  (closed e = true -> closed e' = true) /\
  (chan_closed (ch e) = true -> chan_closed (ch e') = true).

Definition preserves {A} (m : M A) : Prop :=
  forall w a w', m w = Done a w' -> stable (self w) (self w').

(** The world while the caller holds the mutex for reading, and after it
    has let go of it. *)
Definition rlocked (w : World) : World :=
  mkWorld (set_mu (mkRWMutex false (S (readers (mu (self w))))) (self w))
          (delivered w).

Definition runlocked (w : World) : World :=
  mkWorld (set_mu (mkRWMutex (writer (mu (self w)))
                             (Nat.pred (readers (mu (self w)))))
                  (self w))
          (delivered w).

(** [cap(payloadView)] for the view [payload.ToView()]. *)
Definition cap_of (payload : VectorisedView) : Z :=
  Z.of_nat (length (ToView payload ++ spare_of payload)).

(** A descriptor lies within the capacity of the payload view. *)
Definition within_cap (payload : VectorisedView) (hdr : PacketDescriptor)
  : Prop :=
  0 <= Off hdr /\ 0 <= Size hdr /\ Off hdr + Size hdr <= cap_of payload.

(** A descriptor starts before the payload view, has a negative size or ends
    behind the capacity of the view. *)
Definition outside_cap (payload : VectorisedView) (hdr : PacketDescriptor)
  : Prop :=
  Off hdr < 0 \/ Size hdr < 0 \/ cap_of payload < Off hdr + Size hdr.

(** The bound on a descriptor as the spec has it: [0 <= Off] and
    [Off + Size <= len(payloadView)]. *)
Definition within_len (payload : VectorisedView) (hdr : PacketDescriptor)
  : Prop :=
  0 <= Off hdr /\ Off hdr + Size hdr <= Z.of_nat (length (ToView payload)).

(** [Off] and [Size] are values of type [int]. *)
Definition ints (hdr : PacketDescriptor) : Prop :=
  in_int (Off hdr) /\ in_int (Size hdr).

(** The descriptor's slice expression does not panic. *)
Definition sliceable (v : list Byte.byte) (hdr : PacketDescriptor) : Prop :=
  slice v (Off hdr) (wrap_int (Off hdr + Size hdr)) <> None.

(** The endpoint with [ps] appended to its queue. *)
Definition enqueued (ps : list PacketInfo) (e : Endpoint) : Endpoint :=
  set_ch (set_buf (chan_buf (ch e) ++ ps) (ch e)) e.

(** The endpoint with an empty queue. *)
Definition emptied (e : Endpoint) : Endpoint :=
  set_ch (set_buf [] (ch e)) e.

(** The endpoint after the transition of Close. *)
Definition shut (e : Endpoint) : Endpoint :=
  set_closed true (set_ch (set_chan_closed true (ch e)) e).

(** A descriptor lies within the payload view. *)
Definition in_bounds (v : View) (hdr : PacketDescriptor) : Prop :=
  0 <= Off hdr /\ 0 <= Size hdr /\ Off hdr + Size hdr <= Z.of_nat (length v).

(** The record WritePackets queues for a descriptor within the payload. *)
Definition record_of (gso : option stack_GSO) (v : View)
    (protocol : NetworkProtocolNumber) (hdr : PacketDescriptor) : PacketInfo :=
  let bytes := firstn (Z.to_nat (Size hdr)) (skipn (Z.to_nat (Off hdr)) v) in
  {| Pkt := {| Header := Hdr hdr;
               Data := {| views := [bytes]; size := Size hdr |} |};
     Proto := protocol;
     PktGSO := gso |}.

(** [caps & c != 0] *)
Definition has_capability (caps c : Z) : bool := negb (Z.land caps c =? 0).

(** The record WriteRawPacket builds from its argument. *)
Definition raw_info (vv : VectorisedView) : PacketInfo :=
  {| Pkt := {| Data := vv; Header := Prependable_zero |};
     Proto := 0;
     PktGSO := None |}.

(** What a write call offers to the queue, in order. *)
Definition written (c : call) : list PacketInfo :=
  match c with
  | CallWritePacket r gso protocol pkt => [mkPacketInfo pkt protocol gso]
  | CallWritePackets r gso hdrs payload protocol =>
      map (record_of gso (ToView payload) protocol) hdrs
  | CallWriteRawPacket vv => [raw_info vv]
  | _ => []
  end.

(** A write call whose descriptors, if it has any, lie within its payload. *)
Definition write_ok (c : call) : Prop :=
  match c with
  | CallWritePacket _ _ _ _ | CallWriteRawPacket _ => True
  | CallWritePackets r gso hdrs payload protocol =>
      Z.of_nat (length (ToView payload)) <= max_int /\
      Forall (in_bounds (ToView payload)) hdrs
  | _ => False
  end.

Definition is_inject (c : call) : bool :=
  match c with
  | CallInjectInbound _ _ | CallInjectLinkAddr _ _ _ => true
  | _ => false
  end.

(** The dispatcher call an inject call makes on dispatcher [d], the endpoint
    being [e] at the call. *)
Definition delivery_of (d : NetworkDispatcher) (e : Endpoint) (c : call)
  : list DeliverCall :=
  match c with
  | CallInjectInbound protocol pkt => [mkDeliverCall d e "" "" protocol pkt]
  | CallInjectLinkAddr protocol remote pkt =>
      [mkDeliverCall d e remote "" protocol pkt]
  | _ => []
  end.

(** A computation that calls no dispatcher. *)
Definition silent {A} (m : M A) : Prop :=
  forall w a w', m w = Done a w' -> delivered w' = delivered w.

(** What a successful Read returns for a record. *)
Definition read_ok (p : PacketInfo) : option PacketInfo * option string :=
  (Some p, None).

(** What Read returns at the end of the stream. *)
Definition read_eof : option PacketInfo * option string :=
  (None, Some "link channel closed").

(** The endpoint with the given queue. *)
Definition with_queue (buf : list PacketInfo) (e : Endpoint) : Endpoint :=
  set_ch (set_buf buf (ch e)) e.

(** ** Sample inputs *)

Definition sample_pkt : PacketBuffer :=
  mkPacketBuffer (mkVectorisedView [[Byte.x45; Byte.x00]] 2) Prependable_zero.

Definition sample_info : PacketInfo := mkPacketInfo sample_pkt 2048 None.

Definition sample_payload : VectorisedView :=
  mkVectorisedView [[Byte.x01; Byte.x02]; [Byte.x03; Byte.x04]] 4.

Definition sample_hdrs : list PacketDescriptor :=
  [ mkPacketDescriptor Prependable_zero 0 1;
    mkPacketDescriptor Prependable_zero 1 2;
    mkPacketDescriptor Prependable_zero 3 1 ].

(** Views without spare capacity, and views with two spare bytes. *)
Definition no_spare : VectorisedView -> list Byte.byte := fun _ => [].

Definition two_spare : VectorisedView -> list Byte.byte :=
  fun _ => [Byte.x00; Byte.x00].

(** A descriptor with a negative size, within [sample_payload] otherwise. *)
Definition sample_negative_hdr : PacketDescriptor :=
  mkPacketDescriptor Prependable_zero 2 (-1).

(** A descriptor that ends one byte past [sample_payload]. *)
Definition sample_bad_hdr : PacketDescriptor :=
  mkPacketDescriptor Prependable_zero 3 2.

Definition sample_writes : list WriteArgs :=
  [ mkWriteArgs None None 2048 sample_pkt;
    mkWriteArgs None None 2048 sample_pkt;
    mkWriteArgs None None 2048 sample_pkt ].

(** An idle endpoint, as between two calls, with the given queue. *)
Definition sample_world (cap : nat) (buf : list PacketInfo) (cl : bool)
    (d : option NetworkDispatcher) : World :=
  mkWorld (mkEndpoint d 1500 "AA:BB" false cl (mkRWMutex false O)
                      (mkChan cap buf cl))
          [].

(** ** What each method does, as an equation on the world *)

#[local] Arguments Nat.ltb : simpl never.
#[local] Arguments max_int : simpl never.
#[local] Arguments min_int : simpl never.
#[local] Arguments wrap_int : simpl never.

Ltac world w :=
  let d := fresh "d" in let m := fresh "m" in let l := fresh "l" in
  let g := fresh "g" in let c := fresh "c" in let wr := fresh "wr" in
  let rd := fresh "rd" in let cap := fresh "cap" in let buf := fresh "buf" in
  let cl := fresh "cl" in let log := fresh "log" in
  destruct w as [[d m l g c [wr rd] [cap buf cl]] log]; cbn in *.

Ltac step_m :=
  cbv [defer bind ret get put panic block RLock RUnlock Lock Unlock
       close_ch select_send select_recv recv DeliverNetworkPacket
       set_mu set_ch set_closed set_buf set_chan_closed set_dispatcher
       enqueued emptied shut];
  cbn.

Lemma WritePacket_eq r gso protocol pkt w :
  writer (mu (self w)) = false ->
  WritePacket r gso protocol pkt w =
    if closed (self w) then Done (Some ErrBadLinkEndpoint) w
    else if chan_closed (ch (self w)) then Panicked "send on closed channel"
    else if (length (chan_buf (ch (self w))) <? chan_cap (ch (self w)))%nat
         then Done None
                (mkWorld (enqueued [mkPacketInfo pkt protocol gso] (self w))
                         (delivered w))
         else Done None w.
Proof.
  world w; intros ->. unfold WritePacket.
  destruct c, cl; step_m; try reflexivity.
  destruct (length buf <? cap)%nat; reflexivity.
Qed.

Lemma WriteRawPacket_eq vv w :
  writer (mu (self w)) = false ->
  WriteRawPacket vv w =
    if closed (self w) then Done (Some ErrBadLinkEndpoint) w
    else if chan_closed (ch (self w)) then Panicked "send on closed channel"
    else if (length (chan_buf (ch (self w))) <? chan_cap (ch (self w)))%nat
         then Done None
                (mkWorld (enqueued
                            [mkPacketInfo (mkPacketBuffer vv Prependable_zero) 0 None]
                            (self w))
                         (delivered w))
         else Done None w.
Proof.
  world w; intros ->. unfold WriteRawPacket.
  destruct c, cl; step_m; try reflexivity.
  destruct (length buf <? cap)%nat; reflexivity.
Qed.

Lemma InjectLinkAddr_eq protocol remote pkt w :
  writer (mu (self w)) = false ->
  InjectLinkAddr protocol remote pkt w =
    if closed (self w) then Done tt w
    else match dispatcher (self w) with
         | None => Panicked "invalid memory address or nil pointer dereference"
         | Some d =>
             Done tt
               (mkWorld (self w)
                  (delivered w ++
                   [mkDeliverCall d
                      (set_mu (mkRWMutex false (S (readers (mu (self w))))) (self w))
                      remote "" protocol pkt]))
         end.
Proof.
  world w; intros ->. unfold InjectLinkAddr.
  destruct c, d; step_m; reflexivity.
Qed.

Lemma Close_eq w :
  mu (self w) = mkRWMutex false O ->
  Close w =
    if closed (self w) then Done tt w
    else if chan_closed (ch (self w)) then Panicked "close of closed channel"
    else Done tt (mkWorld (shut (self w)) (delivered w)).
Proof.
  world w; intros H; injection H as -> ->. unfold Close.
  destruct c, cl; step_m; reflexivity.
Qed.

Lemma Read_eq w :
  Read w =
    match chan_buf (ch (self w)) with
    | p :: rest =>
        Done (Some p, None)
          (mkWorld (set_ch (set_buf rest (ch (self w))) (self w)) (delivered w))
    | [] => if chan_closed (ch (self w))
            then Done (None, Some "link channel closed") w
            else Blocked
    end.
Proof.
  world w. unfold Read.
  destruct buf; [destruct cl|]; step_m; reflexivity.
Qed.

Lemma select_send_eq p w :
  select_send p w =
    if chan_closed (ch (self w)) then Panicked "send on closed channel"
    else if (length (chan_buf (ch (self w))) <? chan_cap (ch (self w)))%nat
         then Done true (mkWorld (enqueued [p] (self w)) (delivered w))
         else Done false w.
Proof.
  world w. destruct cl; step_m; try reflexivity.
  destruct (length buf <? cap)%nat; reflexivity.
Qed.

Lemma select_recv_eq w :
  select_recv w =
    match chan_buf (ch (self w)) with
    | p :: rest =>
        Done (Some (Value p))
          (mkWorld (set_ch (set_buf rest (ch (self w))) (self w)) (delivered w))
    | [] => if chan_closed (ch (self w)) then Done (Some ClosedEmpty) w
            else Done None w
    end.
Proof.
  world w. destruct buf; [destruct cl|]; step_m; reflexivity.
Qed.

(** *** Arithmetic of [int] and of slices *)

Lemma wrap_int_id z : in_int z -> wrap_int z = z.
Proof.
  unfold in_int, wrap_int, min_int, max_int, int_bits.
  change (2 ^ (64 - 1)) with 9223372036854775808.
  change (2 ^ 64) with 18446744073709551616.
  intros H. rewrite Z.mod_small by lia. lia.
Qed.

Lemma wrap_int_high z :
  max_int < z <= 2 * max_int -> wrap_int z < 0.
Proof.
  unfold wrap_int, max_int, int_bits.
  change (2 ^ (64 - 1)) with 9223372036854775808.
  change (2 ^ 64) with 18446744073709551616.
  intros H.
  replace (z + 9223372036854775808)
    with ((z - 9223372036854775808) + 1 * 18446744073709551616) by lia.
  rewrite Z.mod_add by lia. rewrite Z.mod_small by lia. lia.
Qed.

Lemma slice_Some v lo hi :
  0 <= lo -> lo <= hi -> hi <= Z.of_nat (length v) ->
  slice v lo hi = Some (firstn (Z.to_nat (hi - lo)) (skipn (Z.to_nat lo) v)).
Proof.
  intros H1 H2 H3. unfold slice.
  destruct (Z.leb_spec 0 lo); [|lia].
  destruct (Z.leb_spec lo hi); [|lia].
  destruct (Z.leb_spec hi (Z.of_nat (length v))); [|lia].
  reflexivity.
Qed.

Lemma slice_bounds v lo hi bytes :
  slice v lo hi = Some bytes -> 0 <= lo /\ lo <= hi /\ hi <= Z.of_nat (length v).
Proof.
  unfold slice.
  destruct (Z.leb_spec 0 lo); [|discriminate].
  destruct (Z.leb_spec lo hi); [|discriminate].
  destruct (Z.leb_spec hi (Z.of_nat (length v))); [|discriminate].
  intros _. lia.
Qed.

Lemma slice_None v lo hi :
  lo < 0 \/ hi < lo \/ Z.of_nat (length v) < hi -> slice v lo hi = None.
Proof.
  intros H. destruct (slice v lo hi) eqn:E; [|reflexivity].
  apply slice_bounds in E. lia.
Qed.

Lemma length_sub (v : View) (off sz : Z) :
  0 <= off -> 0 <= sz -> off + sz <= Z.of_nat (length v) ->
  Z.of_nat (length (firstn (Z.to_nat sz) (skipn (Z.to_nat off) v))) = sz.
Proof.
  intros H1 H2 H3. rewrite length_firstn, length_skipn. lia.
Qed.

(** Within the length of the view, the slice of a descriptor is the record's
    data, whatever lies behind the view. *)
Lemma slice_in_bounds v s hdr :
  Z.of_nat (length v) <= max_int -> in_bounds v hdr ->
  slice (v ++ s) (Off hdr) (wrap_int (Off hdr + Size hdr)) =
    Some (firstn (Z.to_nat (Size hdr)) (skipn (Z.to_nat (Off hdr)) v)).
Proof.
  intros Hv (H1 & H2 & H3).
  assert (Hmin : min_int <= 0) by (vm_compute; discriminate).
  rewrite wrap_int_id by (unfold in_int; lia).
  rewrite slice_Some by (rewrite ?length_app; lia). f_equal.
  replace (Z.to_nat (Off hdr + Size hdr - Off hdr)) with (Z.to_nat (Size hdr))
    by lia.
  rewrite skipn_app, firstn_app, length_skipn.
  replace (Z.to_nat (Size hdr) - (length v - Z.to_nat (Off hdr)))%nat with O
    by lia.
  now rewrite firstn_0, app_nil_r.
Qed.

(** A descriptor that starts before the view, has a negative size or ends
    behind the capacity makes the slice expression panic. *)
Lemma slice_outside v hdr :
  Z.of_nat (length v) <= max_int -> ints hdr ->
  Off hdr < 0 \/ Size hdr < 0 \/ Z.of_nat (length v) < Off hdr + Size hdr ->
  slice v (Off hdr) (wrap_int (Off hdr + Size hdr)) = None.
Proof.
  intros Hv [[Ho1 Ho2] [Hs1 Hs2]] H. apply slice_None.
  destruct (Z_lt_le_dec (Off hdr) 0) as [|Hoff]; [now left|]. right.
  destruct (Z_le_gt_dec (Off hdr + Size hdr) max_int).
  - rewrite wrap_int_id by (unfold in_int; lia). lia.
  - left. assert (wrap_int (Off hdr + Size hdr) < 0); [|lia].
    apply wrap_int_high. lia.
Qed.

Lemma Forall_firstn A (P : A -> Prop) n :
  forall l, Forall P l -> Forall P (firstn n l).
Proof.
  induction n as [|n IH]; intros l H; [constructor|].
  destruct H; cbn [firstn]; constructor; auto.
Qed.

(** *** The queue *)

Lemma world_eta w : mkWorld (self w) (delivered w) = w.
Proof. destruct w; reflexivity. Qed.

Lemma enqueued_nil e : enqueued [] e = e.
Proof.
  destruct e as [d m l g c mx [cap buf cl]]. unfold enqueued; step_m.
  now rewrite app_nil_r.
Qed.

Lemma enqueued_app ps qs e : enqueued qs (enqueued ps e) = enqueued (ps ++ qs) e.
Proof.
  destruct e as [d m l g c mx [cap buf cl]]. unfold enqueued; step_m.
  now rewrite app_assoc.
Qed.

Lemma room_enqueued ps e : room (enqueued ps e) = (room e - length ps)%nat.
Proof. unfold room, enqueued; step_m. rewrite length_app. lia. Qed.

(** The loop queues as many descriptors as there are free slots, from the
    first one on, provided those and the one it stops at lie within the
    payload; the descriptors behind are never looked at. *)
Lemma packetLoop_in_bounds gso v s protocol :
  Z.of_nat (length v) <= max_int ->
  forall hdrs n w,
    chan_closed (ch (self w)) = false ->
    Forall (in_bounds v)
           (firstn (S (Nat.min (length hdrs) (room (self w)))) hdrs) ->
    0 <= n -> n + Z.of_nat (room (self w)) <= max_int ->
    packetLoop gso (v ++ s) protocol hdrs n w =
      Done (n + Z.of_nat (Nat.min (length hdrs) (room (self w))))
        (mkWorld
           (enqueued (map (record_of gso v protocol)
                          (firstn (Nat.min (length hdrs) (room (self w))) hdrs))
                     (self w))
           (delivered w)).
Proof.
  intros Hv. induction hdrs as [|hdr hdrs IH]; intros n w Hopen Hb Hn Hmax.
  - cbn. now rewrite enqueued_nil, world_eta, Z.add_0_r.
  - cbn [firstn] in Hb. inversion Hb as [|? ? Hhdr Hrest]; subst.
    cbn [packetLoop]. rewrite (slice_in_bounds _ s _ Hv Hhdr).
    unfold bind. rewrite select_send_eq, Hopen.
    assert (Hmin : min_int <= 0) by (vm_compute; discriminate).
    destruct (Nat.ltb_spec (length (chan_buf (ch (self w)))) (chan_cap (ch (self w))))
      as [Hlt|Hge].
    + assert (Hroom : room (self w) = S (room (self w) - 1)) by (unfold room; lia).
      rewrite wrap_int_id by (unfold in_int; lia).
      rewrite IH; cbn [self delivered]; try assumption; try lia.
      * rewrite room_enqueued, enqueued_app. cbn [length].
        rewrite Hroom at 3 4. cbn [Nat.min firstn map app length].
        rewrite Hroom at 1 2.
        replace (S (room (self w) - 1) - 1)%nat with (room (self w) - 1)%nat by lia.
        f_equal; [lia|]. do 3 f_equal.
        unfold record_of, ToVectorisedView, NewViewFromBytes.
        destruct Hhdr as (H1 & H2 & H3). now rewrite length_sub.
      * rewrite room_enqueued. cbn [length].
        rewrite Hroom in Hrest. cbn [length Nat.min] in Hrest.
        replace (room (self w) - 1)%nat with (room (self w) - 1 - 0)%nat in Hrest
          by lia.
        replace (room (self w) - 1)%nat with (room (self w) - 1 - 0)%nat by lia.
        exact Hrest.
      * rewrite room_enqueued. cbn [length]. lia.
    + assert (Hroom : room (self w) = O) by (unfold room; lia).
      rewrite Hroom, Nat.min_0_r. cbn.
      now rewrite enqueued_nil, world_eta, Z.add_0_r.
Qed.

(** Whatever the descriptors, a loop that returns has appended to the queue
    and touched nothing else. *)
Lemma packetLoop_shape gso v protocol :
  forall hdrs n w n' w',
    packetLoop gso v protocol hdrs n w = Done n' w' ->
    exists ps,
      w' = mkWorld (enqueued ps (self w)) (delivered w) /\
      (length ps <= room (self w))%nat.
Proof.
  induction hdrs as [|hdr hdrs IH]; intros n w n' w' H.
  - cbn in H. injection H as <- <-. exists []. rewrite enqueued_nil, world_eta.
    split; [reflexivity|cbn; lia].
  - cbn [packetLoop] in H.
    destruct (slice v (Off hdr) (wrap_int (Off hdr + Size hdr))) as [bytes|];
      [|discriminate].
    unfold bind in H. rewrite select_send_eq in H.
    destruct (chan_closed (ch (self w))); [discriminate|].
    destruct (Nat.ltb_spec (length (chan_buf (ch (self w)))) (chan_cap (ch (self w))))
      as [Hlt|Hge].
    + apply IH in H. destruct H as (ps & -> & Hlen). cbn [self delivered] in *.
      rewrite room_enqueued in Hlen. cbn [length] in Hlen.
      rewrite enqueued_app. eexists; split; [reflexivity|].
      cbn [length app]. unfold room in *. lia.
    + cbn in H. injection H as <- <-. exists [].
      rewrite enqueued_nil, world_eta. split; [reflexivity|cbn; lia].
Qed.

(** A loop that returns has sliced, without a panic, every descriptor it
    queued and the one it stopped at; it counts what it queued. *)
Lemma packetLoop_Done gso v protocol :
  forall hdrs n w n' w',
    0 <= n -> n + Z.of_nat (room (self w)) <= max_int ->
    packetLoop gso v protocol hdrs n w = Done n' w' ->
    n' = n + Z.of_nat (Nat.min (length hdrs) (room (self w))) /\
    Forall (sliceable v)
      (firstn (S (Nat.min (length hdrs) (room (self w)))) hdrs).
Proof.
  induction hdrs as [|hdr hdrs IH]; intros n w n' w' Hn Hmax H.
  - cbn in H. injection H as <- <-. cbn. split; [lia|constructor].
  - cbn [packetLoop] in H.
    destruct (slice v (Off hdr) (wrap_int (Off hdr + Size hdr))) as [bytes|] eqn:Hs;
      [|discriminate].
    assert (Hhdr : sliceable v hdr) by (unfold sliceable; congruence).
    unfold bind in H. rewrite select_send_eq in H.
    destruct (chan_closed (ch (self w))); [discriminate|].
    assert (Hmin : min_int <= 0) by (vm_compute; discriminate).
    destruct (Nat.ltb_spec (length (chan_buf (ch (self w)))) (chan_cap (ch (self w))))
      as [Hlt|Hge].
    + assert (Hroom : room (self w) = S (room (self w) - 1)) by (unfold room; lia).
      rewrite wrap_int_id in H by (unfold in_int; lia).
      apply IH in H.
      * cbn [self delivered] in H. rewrite room_enqueued in H. cbn [length] in H.
        destruct H as [-> HF]. rewrite Hroom. cbn [length Nat.min].
        split; [lia|]. cbn [firstn]. constructor; assumption.
      * lia.
      * cbn [self delivered]. rewrite room_enqueued. cbn [length]. lia.
    + assert (Hroom : room (self w) = O) by (unfold room; lia).
      cbn in H. injection H as <- <-. rewrite Hroom, Nat.min_0_r.
      split; [lia|]. cbn. constructor; [assumption|constructor].
Qed.

(** *** Drain *)

Lemma emptied_empty e : chan_buf (ch e) = [] -> emptied e = e.
Proof.
  destruct e as [d m l g c mx [cap buf cl]]. cbn. intros ->. reflexivity.
Qed.

(** On a channel that is not closed the loop takes what is queued and leaves
    through the default case. *)
Lemma Drain_loop_open :
  forall fuel c w,
    chan_closed (ch (self w)) = false ->
    0 <= c -> c + Z.of_nat (length (chan_buf (ch (self w)))) <= max_int ->
    (length (chan_buf (ch (self w))) < fuel)%nat ->
    Drain_loop fuel c w =
      Done (c + Z.of_nat (length (chan_buf (ch (self w)))))
           (mkWorld (emptied (self w)) (delivered w)).
Proof.
  induction fuel as [|fuel IH]; intros c w Hopen Hc Hmax Hfuel; [lia|].
  cbn [Drain_loop]. unfold bind. rewrite select_recv_eq.
  destruct (chan_buf (ch (self w))) as [|p rest] eqn:Hbuf.
  - rewrite Hopen. cbn. rewrite emptied_empty by assumption.
    now rewrite world_eta, Z.add_0_r.
  - cbn [length] in *.
    assert (Hmin : min_int <= 0) by (vm_compute; discriminate).
    rewrite wrap_int_id by (unfold in_int; lia).
    rewrite IH; cbn; try assumption; try lia.
    f_equal. lia.
Qed.

(** On a closed channel the receive case is always ready: the loop never
    reaches its default case. *)
Lemma Drain_loop_closed :
  forall fuel c w,
    chan_closed (ch (self w)) = true -> Drain_loop fuel c w = OutOfFuel.
Proof.
  induction fuel as [|fuel IH]; intros c w Hclosed; [reflexivity|].
  cbn [Drain_loop]. unfold bind. rewrite select_recv_eq.
  destruct (chan_buf (ch (self w))) as [|p rest].
  - rewrite Hclosed. now apply IH.
  - apply IH. exact Hclosed.
Qed.

Lemma Drain_loop_shape :
  forall fuel c w c' w',
    Drain_loop fuel c w = Done c' w' ->
    w' = mkWorld (emptied (self w)) (delivered w).
Proof.
  induction fuel as [|fuel IH]; intros c w c' w' H; [discriminate|].
  cbn [Drain_loop] in H. unfold bind in H. rewrite select_recv_eq in H.
  destruct (chan_buf (ch (self w))) as [|p rest] eqn:Hbuf.
  - destruct (chan_closed (ch (self w))) eqn:Hcl.
    + rewrite Drain_loop_closed in H by assumption. discriminate.
    + cbn in H. injection H as <- <-.
      now rewrite emptied_empty, world_eta.
  - apply IH in H. subst w'. reflexivity.
Qed.

(** *** WritePackets around its loop *)

Lemma runlocked_rlocked ps w :
  writer (mu (self w)) = false ->
  runlocked (mkWorld (enqueued ps (self (rlocked w))) (delivered w)) =
  mkWorld (enqueued ps (self w)) (delivered w).
Proof. world w. intros ->. reflexivity. Qed.

Lemma WritePackets_eq r gso hdrs payload protocol w :
  writer (mu (self w)) = false ->
  WritePackets r gso hdrs payload protocol w =
    if closed (self w) then Done (0, Some ErrBadLinkEndpoint) w
    else match packetLoop gso (ToView payload ++ spare_of payload) protocol
                          hdrs 0 (rlocked w) with
         | Done n w1 => Done (n, None) (runlocked w1)
         | Blocked => Blocked
         | Panicked msg => Panicked msg
         | OutOfFuel => OutOfFuel
         end.
Proof.
  intros Hw. unfold WritePackets, bind at 1, RLock, bind at 1, get at 1.
  rewrite Hw. unfold put at 1, defer, bind at 1, bind at 1, get at 1.
  cbn [self delivered]. change (closed (set_mu _ (self w))) with (closed (self w)).
  destruct (closed (self w)) eqn:Hc.
  - world w. subst. reflexivity.
  - unfold bind at 1. fold (rlocked w).
    destruct (packetLoop gso (ToView payload ++ spare_of payload) protocol
                         hdrs 0 (rlocked w))
      as [n w1| |msg|] eqn:Hloop; try reflexivity.
    apply packetLoop_shape in Hloop. destruct Hloop as (ps & -> & _).
    world w. subst. reflexivity.
Qed.

Lemma firstn_S_min A (l : list A) n :
  firstn (S (Nat.min (length l) n)) l = firstn (S n) l.
Proof.
  destruct (Nat.le_gt_cases (length l) n).
  - rewrite Nat.min_l by assumption.
    rewrite !firstn_all2 by lia. reflexivity.
  - now rewrite Nat.min_r by lia.
Qed.

(** *** What no call undoes *)

Lemma stable_refl e : stable e e.
Proof. unfold stable; intuition. Qed.

Lemma stable_trans e1 e2 e3 : stable e1 e2 -> stable e2 e3 -> stable e1 e3.
Proof. unfold stable; intuition congruence. Qed.

Lemma preserves_ret A (a : A) : preserves (ret a).
Proof. intros w a' w' H. injection H as _ <-. apply stable_refl. Qed.

Lemma preserves_bind A B (m : M A) (k : A -> M B) :
  preserves m -> (forall a, preserves (k a)) -> preserves (bind m k).
Proof.
  intros Hm Hk w b w' H. unfold bind in H.
  destruct (m w) as [a w1| | |] eqn:E; try discriminate.
  eapply stable_trans; [eapply Hm|eapply Hk]; eassumption.
Qed.

Lemma preserves_defer A (cleanup : M unit) (body : M A) :
  preserves cleanup -> preserves body -> preserves (defer cleanup body).
Proof.
  intros Hc Hb. unfold defer.
  apply preserves_bind; [assumption|]. intros a.
  apply preserves_bind; [assumption|]. intros _. apply preserves_ret.
Qed.

Ltac prim :=
  let w := fresh "w" in let a := fresh "a" in let w' := fresh "w'" in
  let H := fresh "H" in
  intros w a w' H; world w; revert H; step_m;
  repeat match goal with
         | |- context [if ?b then _ else _] => destruct b; cbn
         | |- context [match ?x with _ => _ end] => destruct x; cbn
         end;
  intros H; try discriminate; injection H as <- <-;
  unfold stable; cbn; intuition congruence.

Lemma preserves_RLock : preserves RLock.
Proof. prim. Qed.

Lemma preserves_RUnlock : preserves RUnlock.
Proof. prim. Qed.

Lemma preserves_Lock : preserves Lock.
Proof. prim. Qed.

Lemma preserves_Unlock : preserves Unlock.
Proof. prim. Qed.

Lemma preserves_close_ch : preserves close_ch.
Proof. prim. Qed.

Lemma preserves_select_send p : preserves (select_send p).
Proof. prim. Qed.

Lemma preserves_select_recv : preserves select_recv.
Proof. prim. Qed.

Lemma preserves_recv : preserves recv.
Proof. prim. Qed.

Lemma preserves_DeliverNetworkPacket d remote local protocol pkt :
  preserves (DeliverNetworkPacket d remote local protocol pkt).
Proof. prim. Qed.

Lemma preserves_get : preserves get.
Proof. prim. Qed.

Create HintDb preserves.
#[local] Hint Resolve preserves_ret preserves_bind preserves_defer
  preserves_RLock preserves_RUnlock preserves_Lock preserves_Unlock
  preserves_close_ch preserves_select_send preserves_select_recv
  preserves_recv preserves_DeliverNetworkPacket preserves_get
  : preserves.

Ltac pres :=
  repeat first
    [ solve [auto with preserves]
    | apply preserves_defer
    | apply preserves_bind; [|intro]
    | match goal with
      | |- preserves (if ?b then _ else _) => destruct b
      | |- preserves (match ?x with _ => _ end) => destruct x
      end
    | progress cbv zeta ].

Lemma preserves_Drain_loop fuel : forall c, preserves (Drain_loop fuel c).
Proof.
  induction fuel as [|fuel IH]; intros c; [intros w a w' H; discriminate|].
  cbn [Drain_loop]. apply preserves_bind; [auto with preserves|].
  intros [r|]; auto with preserves.
Qed.

Lemma preserves_packetLoop gso v protocol hdrs :
  forall n, preserves (packetLoop gso v protocol hdrs n).
Proof.
  induction hdrs as [|hdr hdrs IH]; intros n; cbn [packetLoop];
    [auto with preserves|].
  destruct (slice v (Off hdr) (wrap_int (Off hdr + Size hdr)));
    [|intros w a w' H; discriminate].
  apply preserves_bind; [auto with preserves|].
  intros [|]; auto with preserves.
Qed.

Lemma preserves_Close : preserves Close.
Proof.
  unfold Close. apply preserves_bind; [auto with preserves|]. intros _.
  apply preserves_defer; [auto with preserves|].
  intros w a w' H. unfold bind at 1, get at 1 in H.
  destruct (closed (self w)) eqn:Hc; cbn [negb] in H.
  - injection H as _ <-. apply stable_refl.
  - unfold bind at 1 in H.
    destruct (close_ch w) as [u w1| | |] eqn:E; try discriminate.
    apply preserves_close_ch in E. unfold bind, get, put in H.
    injection H as _ <-.
    unfold stable in *; cbn; intuition congruence.
Qed.

Lemma preserves_Attach d : preserves (Attach d).
Proof. prim. Qed.

Lemma preserves_perform c : preserves (perform c).
Proof.
  destruct c; cbn [perform];
    unfold Drain, Read, InjectInbound, InjectLinkAddr, WritePacket,
           WritePackets, WriteRawPacket, Wait;
    try apply preserves_Close; try apply preserves_Attach;
    pres; solve [apply preserves_Drain_loop | apply preserves_packetLoop].
Qed.

Lemma perform_all_app cs1 cs2 w w' :
  perform_all (cs1 ++ cs2) w = Done tt w' <->
  exists w1, perform_all cs1 w = Done tt w1 /\ perform_all cs2 w1 = Done tt w'.
Proof.
  revert w. induction cs1 as [|c cs1 IH]; intros w; cbn [app perform_all].
  - split.
    + intros H. exists w. split; [reflexivity|assumption].
    + intros (w1 & H1 & H2). injection H1 as <-. assumption.
  - unfold bind. destruct (perform c w) as [[] w0| | |].
    + apply IH.
    + split; [discriminate|intros (? & ? & _); discriminate].
    + split; [discriminate|intros (? & ? & _); discriminate].
    + split; [discriminate|intros (? & ? & _); discriminate].
Qed.

Lemma perform_all_stable cs :
  forall w w', perform_all cs w = Done tt w' -> stable (self w) (self w').
Proof.
  induction cs as [|c cs IH]; intros w w' H; cbn [perform_all] in H.
  - injection H as <-. apply stable_refl.
  - unfold bind in H. destruct (perform c w) as [[] w1| | |] eqn:E;
      try discriminate.
    eapply stable_trans; [eapply preserves_perform; eassumption|eauto].
Qed.

(** *** The endpoint between two calls *)

Lemma consistent_enqueued ps e : consistent e -> consistent (enqueued ps e).
Proof. unfold consistent. cbn. auto. Qed.

Lemma consistent_emptied e : consistent e -> consistent (emptied e).
Proof. unfold consistent. cbn. auto. Qed.

Lemma consistent_writer e : consistent e -> writer (mu e) = false.
Proof. intros [-> _]. reflexivity. Qed.

Lemma perform_consistent c w w' :
  consistent (self w) -> perform c w = Done tt w' -> consistent (self w').
Proof.
  intros Hc H. pose proof (consistent_writer _ Hc) as Hw.
  destruct c; cbn [perform] in H; unfold bind, ret, Wait in H.
  - destruct (Drain fuel w) as [n w1| | |] eqn:E; try discriminate.
    injection H as <-. apply Drain_loop_shape in E. subst w1.
    now apply consistent_emptied.
  - rewrite Read_eq in H.
    destruct (chan_buf (ch (self w)));
      [destruct (chan_closed (ch (self w))) eqn:E|];
      try discriminate; injection H as <-;
      unfold consistent in *; cbn; intuition congruence.
  - rewrite Close_eq in H by apply Hc. destruct Hc as [Hmu Hcl].
    rewrite Hcl in H.
    destruct (closed (self w)) eqn:E; injection H as <-;
      unfold consistent; cbn; intuition congruence.
  - unfold InjectInbound in H. rewrite InjectLinkAddr_eq in H by assumption.
    destruct (closed (self w)); [|destruct (dispatcher (self w))];
      try discriminate; injection H as <-; assumption.
  - rewrite InjectLinkAddr_eq in H by assumption.
    destruct (closed (self w)); [|destruct (dispatcher (self w))];
      try discriminate; injection H as <-; assumption.
  - injection H as <-. exact Hc.
  - injection H as <-. exact Hc.
  - injection H as <-. exact Hc.
  - injection H as <-. exact Hc.
  - injection H as <-. exact Hc.
  - injection H as <-. exact Hc.
  - injection H as <-. exact Hc.
  - rewrite WritePacket_eq in H by assumption.
    destruct (closed (self w)); [|destruct (chan_closed (ch (self w)));
      [|destruct (_ <? _)%nat]]; try discriminate; injection H as <-;
      try assumption; now apply consistent_enqueued.
  - rewrite WritePackets_eq in H by assumption.
    destruct (closed (self w)); [injection H as <-; assumption|].
    destruct (packetLoop _ _ _ _ _ _) as [n w1| | |] eqn:E; try discriminate.
    injection H as <-. apply packetLoop_shape in E. destruct E as (ps & -> & _).
    change (delivered (rlocked w)) with (delivered w).
    rewrite runlocked_rlocked by assumption. now apply consistent_enqueued.
  - rewrite WriteRawPacket_eq in H by assumption.
    destruct (closed (self w)); [|destruct (chan_closed (ch (self w)));
      [|destruct (_ <? _)%nat]]; try discriminate; injection H as <-;
      try assumption; now apply consistent_enqueued.
  - injection H as <-. exact Hc.
Qed.

Lemma perform_all_consistent cs :
  forall w w', consistent (self w) -> perform_all cs w = Done tt w' ->
               consistent (self w').
Proof.
  induction cs as [|c cs IH]; intros w w' Hc H; cbn [perform_all] in H.
  - injection H as <-. assumption.
  - unfold bind in H. destruct (perform c w) as [[] w1| | |] eqn:E;
      try discriminate.
    eapply IH; [eapply perform_consistent|]; eassumption.
Qed.

Lemma New_consistent size mtu0 addr w0 :
  New size mtu0 addr = Done tt w0 ->
  consistent (self w0) /\ closed (self w0) = false.
Proof.
  unfold New. destruct (size <? 0); [discriminate|].
  intros H. injection H as <-. repeat split.
Qed.

(** WritePackets over descriptors that lie within the length of the payload
    view, as far as the loop slices them. *)
Lemma WritePackets_in_bounds r gso hdrs payload protocol w :
  wf (self w) -> closed (self w) = false ->
  Z.of_nat (length (ToView payload)) <= max_int ->
  Forall (in_bounds (ToView payload)) (firstn (S (room (self w))) hdrs) ->
  WritePackets r gso hdrs payload protocol w =
    Done (Z.of_nat (Nat.min (length hdrs) (room (self w))), None)
      (mkWorld
         (enqueued (map (record_of gso (ToView payload) protocol)
                        (firstn (Nat.min (length hdrs) (room (self w))) hdrs))
                   (self w))
         (delivered w)).
Proof.
  intros [Hc [Hfit Hcap]] Hopen Hv Hb.
  pose proof (consistent_writer _ Hc) as Hw.
  rewrite WritePackets_eq, Hopen by assumption.
  rewrite packetLoop_in_bounds; try assumption.
  - change (room (self (rlocked w))) with (room (self w)).
    change (delivered (rlocked w)) with (delivered w).
    now rewrite runlocked_rlocked.
  - destruct Hc as [_ Hch]. cbn. congruence.
  - change (room (self (rlocked w))) with (room (self w)).
    now rewrite firstn_S_min.
  - lia.
  - change (room (self (rlocked w))) with (room (self w)). unfold room. lia.
Qed.

(** A closed endpoint turns every write away and ends the stream. *)
Lemma closed_rejects w :
  consistent (self w) -> closed (self w) = true ->
  (forall r gso protocol pkt,
      WritePacket r gso protocol pkt w = Done (Some ErrBadLinkEndpoint) w) /\
  (forall r gso hdrs payload protocol,
      WritePackets r gso hdrs payload protocol w =
        Done (0, Some ErrBadLinkEndpoint) w) /\
  (forall vv, WriteRawPacket vv w = Done (Some ErrBadLinkEndpoint) w) /\
  (chan_buf (ch (self w)) = [] ->
   Read w = Done (None, Some "link channel closed") w).
Proof.
  intros Hc Hcl. pose proof (consistent_writer _ Hc) as Hw.
  repeat split; intros.
  - now rewrite WritePacket_eq, Hcl.
  - now rewrite WritePackets_eq, Hcl.
  - now rewrite WriteRawPacket_eq, Hcl.
  - rewrite Read_eq. destruct Hc as [_ Hch]. rewrite H, Hch, Hcl. reflexivity.
Qed.

(** Successive writes on an open endpoint fill the free slots in order, drop
    the rest and never report an error. *)
Lemma write_all_open :
  forall args w,
    consistent (self w) -> closed (self w) = false ->
    write_all args w =
      Done (repeat None (length args))
        (mkWorld
           (enqueued (map info_of (firstn (Nat.min (length args) (room (self w))) args))
                     (self w))
           (delivered w)).
Proof.
  induction args as [|a args IH]; intros w Hc Hopen.
  - cbn. now rewrite enqueued_nil, world_eta.
  - cbn [write_all]. unfold bind at 1.
    rewrite WritePacket_eq by now apply consistent_writer.
    rewrite Hopen. destruct Hc as [Hmu Hch]. rewrite Hch, Hopen.
    destruct (Nat.ltb_spec (length (chan_buf (ch (self w)))) (chan_cap (ch (self w))))
      as [Hlt|Hge].
    + assert (Hroom : room (self w) = S (room (self w) - 1)) by (unfold room; lia).
      unfold bind. rewrite IH; [|split; assumption|assumption].
      cbn [self delivered]. rewrite room_enqueued, enqueued_app. cbn [length].
      rewrite Hroom at 2. cbn [Nat.min firstn map app repeat].
      reflexivity.
    + assert (Hroom : room (self w) = O) by (unfold room; lia).
      unfold bind. rewrite IH; [|split; assumption|assumption].
      rewrite Hroom, !Nat.min_0_r. reflexivity.
Qed.

(** * The methods at sample inputs *)

(** An endpoint of capacity 2 takes two of three frames; Drain counts them;
    after Close a raw write is turned away and Read reports the end of the
    stream. *)
Example capacity_two_end_to_end :
  exists w0,
    New 2 1500 "AA:BB" = Done tt w0 /\
    (errs <- write_all sample_writes ;;
     n <- Drain 3 ;;
     Close ;;;
     err <- WriteRawPacket sample_payload ;;
     r <- Read ;;
     ret (errs, n, err, r)) w0 =
    Done ([None; None; None], 2, Some ErrBadLinkEndpoint,
          (None, Some "link channel closed"))
         (sample_world 2 [] true None).
Proof. eexists. split; reflexivity. Qed.

(** Read takes the records in the order WritePackets queued them. *)
Example batch_then_read :
  (WritePackets None None sample_hdrs sample_payload 2048 ;;;
   r1 <- Read ;;
   r2 <- Read ;;
   ret (fst r1, fst r2)) (sample_world 2 [] false None) =
  Done (Some (record_of None (ToView sample_payload) 2048
                        (mkPacketDescriptor Prependable_zero 0 1)),
        Some (record_of None (ToView sample_payload) 2048
                        (mkPacketDescriptor Prependable_zero 1 2)))
       (sample_world 2 [] false None).
Proof.
  unfold bind at 1. rewrite WritePackets_in_bounds.
  - reflexivity.
  - unfold wf, consistent, bounded. cbn.
    repeat split; try lia. vm_compute; discriminate.
  - reflexivity.
  - vm_compute; discriminate.
  - cbv [firstn sample_hdrs room sample_world self ch chan_cap chan_buf length
         Nat.sub].
    repeat (apply Forall_cons || apply Forall_nil);
      unfold in_bounds; cbn; lia.
Qed.

(** On an open endpoint with an empty queue Read parks. *)
Example Read_blocks_on_empty :
  Read (sample_world 2 [] false None) = Blocked.
Proof. reflexivity. Qed.

(** A second [close] of the channel itself would panic; Close guards it. *)
Example close_ch_twice_panics :
  (close_ch ;;; close_ch) (sample_world 2 [] false None) =
  Panicked "close of closed channel".
Proof. reflexivity. Qed.

(** * The properties *)

(** C1: on an endpoint on which Close has been called, every later
    WritePacket, WritePackets and WriteRawPacket returns ErrBadLinkEndpoint
    and queues nothing, and Read, once the queue is empty, returns the error
    [link channel closed] and no record. *)
Theorem closed_endpoint_rejects_writes :
  forall size mtu0 addr w0 before after w,
    New size mtu0 addr = Done tt w0 ->
    perform_all (before ++ CallClose :: after) w0 = Done tt w ->
    (forall r gso protocol pkt,
        WritePacket r gso protocol pkt w = Done (Some ErrBadLinkEndpoint) w) /\
    (forall r gso hdrs payload protocol,
        WritePackets r gso hdrs payload protocol w =
          Done (0, Some ErrBadLinkEndpoint) w) /\
    (forall vv, WriteRawPacket vv w = Done (Some ErrBadLinkEndpoint) w) /\
    (chan_buf (ch (self w)) = [] ->
     Read w = Done (None, Some "link channel closed") w).
Proof.
  intros size mtu0 addr w0 before after w HNew Hrun.
  apply New_consistent in HNew. destruct HNew as [Hc0 _].
  apply perform_all_app in Hrun. destruct Hrun as (w1 & Hbefore & Hrest).
  pose proof (perform_all_consistent _ _ _ Hc0 Hbefore) as Hc1.
  cbn [perform_all perform] in Hrest. unfold bind in Hrest.
  destruct (Close w1) as [[] w2| | |] eqn:HClose; try discriminate.
  assert (Hc2 : consistent (self w2))
    by (apply (perform_consistent CallClose w1); assumption).
  assert (Hclosed2 : closed (self w2) = true).
  { rewrite Close_eq in HClose by apply Hc1. destruct Hc1 as [_ Hch].
    rewrite Hch in HClose.
    destruct (closed (self w1)) eqn:E; injection HClose as <-;
      [assumption|reflexivity]. }
  apply closed_rejects.
  - eapply perform_all_consistent; eassumption.
  - apply perform_all_stable in Hrest. now apply Hrest.
Qed.

(** C2: on an open endpoint whose queue has free room for only [free]
    records, WritePackets over more than [free] descriptors of one payload
    returns the count [free] and no error, and the records queued are those
    of the first [free] descriptors, in order, behind what was queued.  The
    descriptors the loop slices, the first [free] and the one it stops at,
    lie within the payload. *)
Theorem WritePackets_partial_batch :
  forall w r gso hdrs payload protocol (free : nat),
    wf (self w) -> closed (self w) = false ->
    Z.of_nat (length (ToView payload)) <= max_int ->
    room (self w) = free -> (free < length hdrs)%nat ->
    Forall (in_bounds (ToView payload)) (firstn (S free) hdrs) ->
    WritePackets r gso hdrs payload protocol w =
      Done (Z.of_nat free, None)
        (mkWorld
           (enqueued (map (record_of gso (ToView payload) protocol)
                          (firstn free hdrs))
                     (self w))
           (delivered w)).
Proof.
  intros w r gso hdrs payload protocol free [Hc [Hfit Hcap]] Hopen Hv Hfree Hlt Hb.
  pose proof (consistent_writer _ Hc) as Hw.
  rewrite WritePackets_eq, Hopen by assumption.
  rewrite packetLoop_in_bounds; try assumption.
  - change (room (self (rlocked w))) with (room (self w)).
    change (delivered (rlocked w)) with (delivered w).
    rewrite Hfree, Nat.min_r by lia.
    now rewrite runlocked_rlocked.
  - destruct Hc as [_ Hch]. cbn. congruence.
  - change (room (self (rlocked w))) with (room (self w)).
    now rewrite Hfree, Nat.min_r by lia.
  - lia.
  - change (room (self (rlocked w))) with (room (self w)). unfold room. lia.
Qed.

(** C3: on an open endpoint whose queue is at capacity, WritePacket and
    WriteRawPacket return without an error and without blocking and leave
    the endpoint as it was; they return an error only on a closed
    endpoint. *)
Theorem full_queue_drops_silently :
  (forall w,
      consistent (self w) -> closed (self w) = false ->
      length (chan_buf (ch (self w))) = chan_cap (ch (self w)) ->
      (forall r gso protocol pkt, WritePacket r gso protocol pkt w = Done None w) /\
      (forall vv, WriteRawPacket vv w = Done None w)) /\
  (forall w err w',
      (forall r gso protocol pkt,
          WritePacket r gso protocol pkt w = Done (Some err) w' ->
          closed (self w) = true) /\
      (forall vv,
          WriteRawPacket vv w = Done (Some err) w' -> closed (self w) = true)).
Proof.
  split.
  - intros w Hc Hopen Hfull. pose proof (consistent_writer _ Hc) as Hw.
    destruct Hc as [_ Hch].
    split; intros; [rewrite WritePacket_eq|rewrite WriteRawPacket_eq];
      try assumption; rewrite Hopen, Hch, Hopen, Hfull, Nat.ltb_irrefl;
      reflexivity.
  - intros w err w'. split; intros; world w; revert H;
      [unfold WritePacket|unfold WriteRawPacket];
      destruct wr, c, cl; step_m; try discriminate; try reflexivity;
      destruct (length buf <? cap)%nat; discriminate.
Qed.

(** C4: on a freshly constructed endpoint, as New returned it with capacity
    [size], [N] successive WritePacket calls all return without blocking and
    without an error, and the Drain after them returns [N] when [N <= size]
    and [size] when [N > size]. *)
Theorem Drain_counts_writes :
  forall size mtu0 addr w0 (writes : list WriteArgs) fuel,
    New size mtu0 addr = Done tt w0 ->
    size <= max_int ->
    (Nat.min (length writes) (Z.to_nat size) < fuel)%nat ->
    exists w1 w2,
      write_all writes w0 = Done (repeat None (length writes)) w1 /\
      (Z.of_nat (length writes) <= size ->
       Drain fuel w1 = Done (Z.of_nat (length writes)) w2) /\
      (Z.of_nat (length writes) > size -> Drain fuel w1 = Done size w2).
Proof.
  intros size mtu0 addr w0 writes fuel HNew Hsize Hfuel.
  pose proof (New_consistent _ _ _ _ HNew) as [Hc0 Hopen0].
  assert (Hfresh : 0 <= size /\ room (self w0) = Z.to_nat size /\
                   chan_buf (ch (self w0)) = []).
  { unfold New in HNew. destruct (Z.ltb_spec size 0); [discriminate|].
    injection HNew as <-. unfold room. cbn. repeat split; lia. }
  destruct Hfresh as (Hpos & Hroom & Hbuf).
  set (ps := map info_of
               (firstn (Nat.min (length writes) (room (self w0))) writes)).
  set (w1 := mkWorld (enqueued ps (self w0)) (delivered w0)).
  assert (Hlen : length (chan_buf (ch (self w1))) =
                 Nat.min (length writes) (Z.to_nat size)).
  { cbn. rewrite Hbuf. cbn [app]. unfold ps.
    rewrite length_map, length_firstn, Hroom. lia. }
  assert (HDrain : Drain fuel w1 =
                   Done (Z.of_nat (Nat.min (length writes) (Z.to_nat size)))
                        (mkWorld (emptied (self w1)) (delivered w1))).
  { unfold Drain. rewrite Drain_loop_open.
    - now rewrite Hlen.
    - destruct Hc0 as [_ Hch]. cbn. congruence.
    - lia.
    - rewrite Hlen. lia.
    - rewrite Hlen. exact Hfuel. }
  exists w1, (mkWorld (emptied (self w1)) (delivered w1)).
  split; [apply write_all_open; assumption|].
  rewrite HDrain. split; intros H; do 2 f_equal; lia.
Qed.

(** The field [GSO] after the steps of a caller is what its last assignment
    made it; the method calls leave it alone. *)
Lemma take_all_GSO ss :
  forall w w',
    take_all ss w = Done tt w' ->
    GSO (self w') = GSO_after ss (GSO (self w)).
Proof.
  induction ss as [|st ss IH]; intros w w' H; cbn [take_all] in H.
  - now injection H as <-.
  - unfold bind in H. destruct (take st w) as [[] w1| | |] eqn:E;
      try discriminate.
    apply IH in H. rewrite H. destruct st as [c|b]; cbn [take GSO_after] in *.
    + apply preserves_perform in E. destruct E as [-> _]. reflexivity.
    + unfold AssignGSO, bind, get, put in E. injection E as <-. reflexivity.
Qed.

(** C5 (as amended): New takes no GSO flag and leaves the field [GSO] false;
    the methods never change it, and a caller may assign it.  On an endpoint
    built by New, after any method calls and assignments, the field holds
    what the last assignment gave it (false when there was none), and
    Capabilities reports the hardware-GSO bit exactly when the field is set;
    MaxHeaderLength is 0 and GSOMaxSize is 32768. *)
Theorem Capabilities_mirrors_GSO_field :
  CapabilityHardwareGSO <> 0 ->
  forall size mtu0 addr w0 ss w,
    New size mtu0 addr = Done tt w0 ->
    take_all ss w0 = Done tt w ->
    GSO (self w) = GSO_after ss false /\
    (has_capability (Capabilities (self w)) CapabilityHardwareGSO = true <->
     GSO (self w) = true) /\
    MaxHeaderLength (self w) = 0 /\
    GSOMaxSize (self w) = 32768.
Proof.
  intros Hbit size mtu0 addr w0 ss w HNew Hrun.
  apply take_all_GSO in Hrun.
  assert (H0 : GSO (self w0) = false).
  { unfold New in HNew. destruct (size <? 0); [discriminate|].
    now injection HNew as <-. }
  rewrite H0 in Hrun.
  split; [assumption|]. split; [|split; reflexivity].
  unfold has_capability, Capabilities.
  destruct (GSO (self w)).
  - rewrite Z.lor_0_l, Z.land_diag.
    destruct (Z.eqb_spec CapabilityHardwareGSO 0); [contradiction|].
    split; reflexivity.
  - rewrite Z.land_0_l. cbn. split; discriminate.
Qed.

(** C6: the first Close sets [closed] and closes the channel; a later Close
    returns without a panic and changes nothing; no call of any method
    brings [closed] back to false. *)
Theorem Close_is_monotonic :
  (forall w,
      consistent (self w) -> closed (self w) = false ->
      chan_closed (ch (self w)) = false /\
      Close w = Done tt (mkWorld (shut (self w)) (delivered w)) /\
      closed (shut (self w)) = true /\
      chan_closed (ch (shut (self w))) = true) /\
  (forall w,
      consistent (self w) -> closed (self w) = true -> Close w = Done tt w) /\
  (forall calls w w',
      perform_all calls w = Done tt w' ->
      closed (self w) = true -> closed (self w') = true).
Proof.
  repeat split.
  - destruct H as [_ Hch]. congruence.
  - rewrite Close_eq by apply H. destruct H as [_ Hch].
    now rewrite H0, Hch, H0.
  - intros w Hc Hcl. rewrite Close_eq by apply Hc. now rewrite Hcl.
  - intros calls w w' Hrun. apply perform_all_stable in Hrun. apply Hrun.
Qed.

(** C7: InjectInbound is InjectLinkAddr with the empty remote address.  On
    an open endpoint with dispatcher [d] attached, InjectLinkAddr makes one
    call [d.DeliverNetworkPacket(e, remote, local, protocol, pkt)] with the
    endpoint itself, the given remote address, the empty local address, the
    protocol and the packet, returns, and changes nothing else; on a closed
    endpoint it returns having called nothing. *)
Theorem InjectInbound_delivers :
  (forall protocol pkt,
      InjectInbound protocol pkt = InjectLinkAddr protocol "" pkt) /\
  (forall w d protocol remote pkt,
      writer (mu (self w)) = false -> closed (self w) = false ->
      dispatcher (self w) = Some d ->
      InjectLinkAddr protocol remote pkt w =
        Done tt
          (mkWorld (self w)
             (delivered w ++
              [mkDeliverCall d (self (rlocked w)) remote "" protocol pkt]))) /\
  (forall w protocol remote pkt,
      writer (mu (self w)) = false -> closed (self w) = true ->
      InjectLinkAddr protocol remote pkt w = Done tt w).
Proof.
  split; [reflexivity|]. split.
  - intros w d protocol remote pkt Hw Hopen Hd.
    now rewrite InjectLinkAddr_eq, Hopen, Hd.
  - intros w protocol remote pkt Hw Hcl.
    now rewrite InjectLinkAddr_eq, Hcl.
Qed.

(** C8: Drain called after Close never returns: on the closed channel the
    receive case of its select is always ready, so whatever the fuel the loop
    is still running when it is used up. *)
Theorem Drain_after_Close_never_returns :
  forall fuel,
    exists w0 w1,
      New 1 1500 "" = Done tt w0 /\
      Close w0 = Done tt w1 /\
      Drain fuel w1 = OutOfFuel.
Proof.
  intros fuel. eexists _, _. split; [reflexivity|]. split; [reflexivity|].
  apply Drain_loop_closed. reflexivity.
Qed.

(** A descriptor the loop slices and cannot makes the loop panic. *)
Lemma packetLoop_panics gso v protocol :
  forall hdrs n w,
    chan_closed (ch (self w)) = false ->
    Exists (fun hdr => slice v (Off hdr) (wrap_int (Off hdr + Size hdr)) = None)
           (firstn (S (Nat.min (length hdrs) (room (self w)))) hdrs) ->
    packetLoop gso v protocol hdrs n w = Panicked "slice bounds out of range".
Proof.
  induction hdrs as [|hdr hdrs IH]; intros n w Hopen Hex.
  - cbn in Hex. inversion Hex.
  - cbn [firstn] in Hex. cbn [packetLoop].
    destruct (slice v (Off hdr) (wrap_int (Off hdr + Size hdr))) as [bytes|] eqn:Hs;
      [|reflexivity].
    inversion Hex as [? ? Hhere|? ? Hlater]; subst; [congruence|].
    unfold bind. rewrite select_send_eq, Hopen.
    destruct (Nat.ltb_spec (length (chan_buf (ch (self w)))) (chan_cap (ch (self w))))
      as [Hlt|Hge].
    + apply IH; [exact Hopen|]. cbn [self]. rewrite room_enqueued. cbn [length].
      assert (Hroom : room (self w) = S (room (self w) - 1)) by (unfold room; lia).
      rewrite Hroom in Hlater. exact Hlater.
    + assert (Hroom : room (self w) = O) by (unfold room; lia).
      rewrite Hroom in Hlater. cbn in Hlater. inversion Hlater.
Qed.

(** C9 (as amended): WritePackets takes the slice [payloadView[off:off+size]]
    with no check of its own, and Go bounds it by the capacity of the view.
    On an open endpoint the loop slices the descriptors in order up to the
    first that finds the queue full, the first [room + 1] of them.  When each
    of these has [0 <= Off], [0 <= Size] and [Off + Size <= cap(payloadView)]
    the call returns; when one of them has [Off < 0], [Size < 0] or
    [Off + Size > cap(payloadView)] the call panics and returns no error; so
    a call that returns has sliced only descriptors within the capacity. *)
Theorem WritePackets_slice_precondition :
  forall w r gso hdrs payload protocol,
    wf (self w) -> closed (self w) = false ->
    cap_of payload <= max_int -> Forall ints hdrs ->
    (Forall (within_cap payload) (firstn (S (room (self w))) hdrs) ->
     exists w',
       WritePackets r gso hdrs payload protocol w =
         Done (Z.of_nat (Nat.min (length hdrs) (room (self w))), None) w') /\
    (Exists (outside_cap payload) (firstn (S (room (self w))) hdrs) ->
     WritePackets r gso hdrs payload protocol w =
       Panicked "slice bounds out of range") /\
    (forall n err w',
        WritePackets r gso hdrs payload protocol w = Done (n, err) w' ->
        Forall (within_cap payload) (firstn (S (room (self w))) hdrs)).
Proof.
  intros w r gso hdrs payload protocol [Hc [Hfit Hcap]] Hopen Hv Hints.
  pose proof (consistent_writer _ Hc) as Hw.
  assert (Hcl : chan_closed (ch (self (rlocked w))) = false)
    by (destruct Hc as [_ Hch]; cbn; congruence).
  assert (Hpanic : Exists (outside_cap payload) (firstn (S (room (self w))) hdrs) ->
                   WritePackets r gso hdrs payload protocol w =
                     Panicked "slice bounds out of range").
  { intros Hout. rewrite WritePackets_eq, Hopen by assumption.
    rewrite packetLoop_panics; [reflexivity|exact Hcl|].
    change (room (self (rlocked w))) with (room (self w)).
    rewrite firstn_S_min.
    apply (Forall_firstn _ _ (S (room (self w)))) in Hints.
    apply Exists_exists in Hout. destruct Hout as (hdr & Hhdr & Hbad).
    apply Exists_exists. exists hdr. split; [assumption|].
    apply slice_outside; [exact Hv| |exact Hbad].
    exact (proj1 (Forall_forall _ _) Hints hdr Hhdr). }
  split; [|split].
  - intros Hin. rewrite WritePackets_eq, Hopen by assumption.
    rewrite <- (app_nil_r (ToView payload ++ spare_of payload)).
    rewrite packetLoop_in_bounds.
    + eexists. reflexivity.
    + exact Hv.
    + exact Hcl.
    + change (room (self (rlocked w))) with (room (self w)).
      rewrite firstn_S_min. exact Hin.
    + lia.
    + change (room (self (rlocked w))) with (room (self w)). unfold room. lia.
  - exact Hpanic.
  - intros n err w' Hdone. apply Forall_forall. intros hdr Hhdr.
    destruct (Z_lt_le_dec (Off hdr) 0) as [H1|H1];
      [|destruct (Z_lt_le_dec (Size hdr) 0) as [H2|H2];
        [|destruct (Z_lt_le_dec (cap_of payload) (Off hdr + Size hdr)) as [H3|H3]]];
      try (repeat split; assumption);
      exfalso; rewrite Hpanic in Hdone; try discriminate;
      apply Exists_exists; exists hdr; (split; [assumption|]);
      unfold outside_cap; auto.
Qed.


(** C10: on an open endpoint with no dispatcher attached InjectInbound and
    InjectLinkAddr panic on the nil dispatcher; on a closed endpoint they
    return, attached or not, and leave the world as it was. *)
Theorem Inject_needs_dispatcher :
  forall w protocol remote pkt,
    writer (mu (self w)) = false ->
    (closed (self w) = false -> IsAttached (self w) = false ->
     InjectLinkAddr protocol remote pkt w =
       Panicked "invalid memory address or nil pointer dereference" /\
     InjectInbound protocol pkt w =
       Panicked "invalid memory address or nil pointer dereference") /\
    (closed (self w) = true ->
     InjectLinkAddr protocol remote pkt w = Done tt w /\
     InjectInbound protocol pkt w = Done tt w).
Proof.
  intros w protocol remote pkt Hw. unfold InjectInbound.
  rewrite !InjectLinkAddr_eq by assumption. split.
  - intros -> Hd. unfold IsAttached in Hd.
    destruct (dispatcher (self w)); [discriminate|]. split; reflexivity.
  - intros ->. split; reflexivity.
Qed.

(** * Further properties of the methods *)

(** ** What every call keeps *)

Lemma New_world size mtu0 addr w0 :
  New size mtu0 addr = Done tt w0 ->
  0 <= size /\
  w0 = mkWorld (mkEndpoint None mtu0 addr false false (mkRWMutex false O)
                           (mkChan (Z.to_nat size) [] false)) [].
Proof.
  unfold New. destruct (Z.ltb_spec size 0) as [Hneg|Hpos]; [discriminate|].
  intros HNew. injection HNew as <-. split; [assumption|reflexivity].
Qed.

(** A call that returns leaves no more in the queue than the channel
    holds. *)
Lemma perform_fits c w w' :
  consistent (self w) ->
  (length (chan_buf (ch (self w))) <= chan_cap (ch (self w)))%nat ->
  perform c w = Done tt w' ->
  (length (chan_buf (ch (self w'))) <= chan_cap (ch (self w')))%nat.
Proof.
  intros Hc Hfit H. pose proof (consistent_writer _ Hc) as Hw.
  destruct c; cbn [perform] in H; unfold bind, ret, Wait in H;
    try (injection H as <-; exact Hfit).
  - destruct (Drain fuel w) as [n w1| | |] eqn:E; try discriminate.
    injection H as <-. apply Drain_loop_shape in E. subst w1. cbn. lia.
  - rewrite Read_eq in H.
    destruct (chan_buf (ch (self w))) eqn:Hbuf;
      [destruct (chan_closed (ch (self w)))|];
      try discriminate; injection H as <-; cbn in *; rewrite ?Hbuf; cbn; lia.
  - rewrite Close_eq in H by apply Hc.
    destruct (closed (self w)); [|destruct (chan_closed (ch (self w)))];
      try discriminate; injection H as <-; exact Hfit.
  - unfold InjectInbound in H. rewrite InjectLinkAddr_eq in H by assumption.
    destruct (closed (self w)); [|destruct (dispatcher (self w))];
      try discriminate; injection H as <-; exact Hfit.
  - rewrite InjectLinkAddr_eq in H by assumption.
    destruct (closed (self w)); [|destruct (dispatcher (self w))];
      try discriminate; injection H as <-; exact Hfit.
  - rewrite WritePacket_eq in H by assumption.
    destruct (closed (self w)); [|destruct (chan_closed (ch (self w)));
      [|destruct (Nat.ltb_spec (length (chan_buf (ch (self w))))
                               (chan_cap (ch (self w))))]];
      try discriminate; injection H as <-; try exact Hfit.
    cbn. rewrite length_app. cbn. lia.
  - rewrite WritePackets_eq in H by assumption.
    destruct (closed (self w)); [injection H as <-; exact Hfit|].
    destruct (packetLoop _ _ _ _ _ _) as [n w1| | |] eqn:E; try discriminate.
    injection H as <-. apply packetLoop_shape in E. destruct E as (ps & -> & Hlen).
    change (room (self (rlocked w))) with (room (self w)) in Hlen.
    cbn. rewrite length_app. unfold room in Hlen. lia.
  - rewrite WriteRawPacket_eq in H by assumption.
    destruct (closed (self w)); [|destruct (chan_closed (ch (self w)));
      [|destruct (Nat.ltb_spec (length (chan_buf (ch (self w))))
                               (chan_cap (ch (self w))))]];
      try discriminate; injection H as <-; try exact Hfit.
    cbn. rewrite length_app. cbn. lia.
Qed.

Lemma perform_all_fits cs :
  forall w w',
    consistent (self w) ->
    (length (chan_buf (ch (self w))) <= chan_cap (ch (self w)))%nat ->
    perform_all cs w = Done tt w' ->
    (length (chan_buf (ch (self w'))) <= chan_cap (ch (self w')))%nat.
Proof.
  induction cs as [|c cs IH]; intros w w' Hc Hfit H; cbn [perform_all] in H.
  - injection H as <-. assumption.
  - unfold bind in H. destruct (perform c w) as [[] w1| | |] eqn:E;
      try discriminate.
    eapply IH; [eapply perform_consistent|eapply perform_fits|]; eassumption.
Qed.

(** X1: whatever calls were made on an endpoint since New, once they have
    returned the mutex is free, the channel is closed exactly when the
    [closed] flag is set, and the queue holds no more records than the
    capacity given to New. *)
Theorem calls_keep_endpoint_well_formed :
  forall size mtu0 addr w0 cs w,
    New size mtu0 addr = Done tt w0 ->
    perform_all cs w0 = Done tt w ->
    mu (self w) = mkRWMutex false O /\
    chan_closed (ch (self w)) = closed (self w) /\
    (length (chan_buf (ch (self w))) <= Z.to_nat size)%nat.
Proof.
  intros size mtu0 addr w0 cs w HNew Hrun.
  pose proof (New_consistent _ _ _ _ HNew) as [Hc0 _].
  pose proof (perform_all_consistent _ _ _ Hc0 Hrun) as [Hmu Hch].
  apply New_world in HNew. destruct HNew as [_ ->].
  pose proof (perform_all_stable _ _ _ Hrun) as (_ & _ & _ & Hcap & _).
  split; [assumption|]. split; [assumption|].
  cbn in Hcap. rewrite <- Hcap.
  eapply perform_all_fits; [| |eassumption]; cbn; [split; reflexivity|lia].
Qed.

(** X2: MTU and LinkAddress return the values given to New, and the channel
    keeps the capacity given to New, whatever calls were made since. *)
Theorem constructor_values_stay :
  forall size mtu0 addr w0 cs w,
    New size mtu0 addr = Done tt w0 ->
    perform_all cs w0 = Done tt w ->
    MTU (self w) = mtu0 /\
    LinkAddress_of (self w) = addr /\
    chan_cap (ch (self w)) = Z.to_nat size.
Proof.
  intros size mtu0 addr w0 cs w HNew Hrun.
  apply New_world in HNew. destruct HNew as [_ ->].
  apply perform_all_stable in Hrun.
  destruct Hrun as (_ & Hmtu & Haddr & Hcap & _).
  repeat split; assumption.
Qed.

(** ** Reading the queue *)

Lemma with_queue_same e : with_queue (chan_buf (ch e)) e = e.
Proof. destruct e as [d m l g c mx [cap buf cl]]. reflexivity. Qed.

(** Reads take the records from the head of the queue, oldest first. *)
Lemma read_all_firstn :
  forall n w,
    (n <= length (chan_buf (ch (self w))))%nat ->
    read_all n w =
      Done (map read_ok (firstn n (chan_buf (ch (self w)))))
           (mkWorld (with_queue (skipn n (chan_buf (ch (self w)))) (self w))
                    (delivered w)).
Proof.
  induction n as [|n IH]; intros w Hn.
  - cbn. now rewrite with_queue_same, world_eta.
  - cbn [read_all]. unfold bind at 1. rewrite Read_eq.
    destruct (chan_buf (ch (self w))) as [|p rest] eqn:Hbuf; [cbn in Hn; lia|].
    unfold bind. rewrite IH by (cbn in *; lia). reflexivity.
Qed.

Lemma read_all_eof :
  forall k w,
    chan_buf (ch (self w)) = [] -> chan_closed (ch (self w)) = true ->
    read_all k w = Done (repeat read_eof k) w.
Proof.
  induction k as [|k IH]; intros w Hbuf Hcl; [reflexivity|].
  cbn [read_all]. unfold bind at 1. rewrite Read_eq, Hbuf, Hcl.
  unfold bind. now rewrite IH.
Qed.

Lemma read_all_closed :
  forall buf w k,
    chan_buf (ch (self w)) = buf -> chan_closed (ch (self w)) = true ->
    read_all (length buf + k) w =
      Done (map read_ok buf ++ repeat read_eof k)
           (mkWorld (emptied (self w)) (delivered w)).
Proof.
  induction buf as [|p rest IH]; intros w k Hbuf Hcl.
  - cbn [length Nat.add map app]. rewrite read_all_eof by assumption.
    now rewrite emptied_empty, world_eta.
  - cbn [length Nat.add read_all]. unfold bind at 1. rewrite Read_eq, Hbuf.
    unfold bind. rewrite (IH _ k); [reflexivity|reflexivity|exact Hcl].
Qed.

Lemma read_all_blocks :
  forall n w,
    chan_closed (ch (self w)) = false ->
    (length (chan_buf (ch (self w))) < n)%nat ->
    read_all n w = Blocked.
Proof.
  induction n as [|n IH]; intros w Hopen Hn; [lia|].
  cbn [read_all]. unfold bind at 1. rewrite Read_eq.
  destruct (chan_buf (ch (self w))) as [|p rest] eqn:Hbuf.
  - now rewrite Hopen.
  - unfold bind. rewrite IH; [reflexivity|exact Hopen|cbn in *; lia].
Qed.

(** X3: Read hands out the queued records oldest first: [n] reads, with at
    least [n] records queued, return the first [n] of them in order without
    an error and leave the others queued, on an open and on a closed endpoint
    alike; on an open endpoint a read beyond what is queued blocks. *)
Theorem Read_takes_queue_in_order :
  forall w n,
    ((n <= length (chan_buf (ch (self w))))%nat ->
     read_all n w =
       Done (map read_ok (firstn n (chan_buf (ch (self w)))))
            (mkWorld (with_queue (skipn n (chan_buf (ch (self w)))) (self w))
                     (delivered w))) /\
    (chan_closed (ch (self w)) = false ->
     (length (chan_buf (ch (self w))) < n)%nat ->
     read_all n w = Blocked).
Proof.
  intros w n. split.
  - apply read_all_firstn.
  - apply read_all_blocks.
Qed.

(** X4: closing keeps what is queued: on a closed channel the reads return
    every queued record in order, and only then the error
    [link channel closed], as often as Read is called. *)
Theorem closed_stream_ends_after_queue :
  forall w k,
    chan_closed (ch (self w)) = true ->
    read_all (length (chan_buf (ch (self w))) + k) w =
      Done (map read_ok (chan_buf (ch (self w))) ++ repeat read_eof k)
           (mkWorld (emptied (self w)) (delivered w)).
Proof.
  intros w k Hcl. now apply read_all_closed.
Qed.

(** X5: on an open endpoint Drain returns the number of records queued,
    whatever put them there, and leaves the queue empty and all else as it
    was; a Drain right after it returns 0. *)
Theorem Drain_counts_and_empties :
  forall w fuel,
    wf (self w) -> closed (self w) = false ->
    (length (chan_buf (ch (self w))) < fuel)%nat ->
    Drain fuel w =
      Done (Z.of_nat (length (chan_buf (ch (self w)))))
           (mkWorld (emptied (self w)) (delivered w)) /\
    Drain fuel (mkWorld (emptied (self w)) (delivered w)) =
      Done 0 (mkWorld (emptied (self w)) (delivered w)).
Proof.
  intros w fuel [[_ Hch] [Hfit Hcap]] Hopen Hfuel.
  assert (Hcl : chan_closed (ch (self w)) = false) by congruence.
  unfold Drain. split.
  - rewrite Drain_loop_open; try assumption; [reflexivity|lia|lia].
  - assert (Hmax : 0 <= max_int) by (vm_compute; discriminate).
    rewrite Drain_loop_open; cbn; try assumption; try lia.
    reflexivity.
Qed.

(** X6: what is written while there is room is read back unchanged and in
    order: after the writes, reading as many records as are queued returns
    the records queued before and then one record per write, with the
    packet, protocol and GSO of that write, and leaves the queue empty. *)
Theorem write_then_read_round_trip :
  forall w args,
    consistent (self w) -> closed (self w) = false ->
    (length args <= room (self w))%nat ->
    (write_all args ;;;
     read_all (length (chan_buf (ch (self w))) + length args)) w =
      Done (map read_ok (chan_buf (ch (self w)) ++ map info_of args))
           (mkWorld (emptied (self w)) (delivered w)).
Proof.
  intros w args Hc Hopen Hlen. unfold bind.
  rewrite write_all_open by assumption.
  rewrite Nat.min_l, firstn_all by assumption.
  rewrite read_all_firstn;
    cbn [self delivered enqueued set_ch set_buf ch chan_buf];
    rewrite ?length_app, ?length_map; [|lia].
  replace (length (chan_buf (ch (self w))) + length args)%nat
    with (length (chan_buf (ch (self w)) ++ map info_of args))
    by (now rewrite length_app, length_map).
  now rewrite firstn_all, skipn_all.
Qed.

(** ** Writing to the queue *)

Lemma firstn_min A (l : list A) n :
  firstn (Nat.min (length l) n) l = firstn n l.
Proof.
  destruct (Nat.le_gt_cases n (length l)).
  - now rewrite Nat.min_r.
  - rewrite Nat.min_l, firstn_all by lia. symmetry. apply firstn_all2. lia.
Qed.

Lemma wf_enqueued ps e :
  wf e -> (length ps <= room e)%nat -> wf (enqueued ps e).
Proof.
  intros [Hc [Hfit Hcap]] Hlen. split; [now apply consistent_enqueued|].
  unfold bounded, room in *. cbn. rewrite length_app. split; [lia|assumption].
Qed.

(** A loop that returns has queued a record for each of the first
    descriptors, as many as there was room for. *)
Lemma packetLoop_count gso v protocol :
  forall hdrs n w n' w',
    packetLoop gso v protocol hdrs n w = Done n' w' ->
    exists ps,
      w' = mkWorld (enqueued ps (self w)) (delivered w) /\
      length ps = Nat.min (length hdrs) (room (self w)).
Proof.
  induction hdrs as [|hdr hdrs IH]; intros n w n' w' H.
  - cbn in H. injection H as <- <-. exists []. rewrite enqueued_nil, world_eta.
    split; reflexivity.
  - cbn [packetLoop] in H.
    destruct (slice v (Off hdr) (wrap_int (Off hdr + Size hdr))) as [bytes|];
      [|discriminate].
    unfold bind in H. rewrite select_send_eq in H.
    destruct (chan_closed (ch (self w))); [discriminate|].
    destruct (Nat.ltb_spec (length (chan_buf (ch (self w)))) (chan_cap (ch (self w))))
      as [Hlt|Hge].
    + apply IH in H. destruct H as (ps & -> & Hlen). cbn [self delivered] in *.
      rewrite room_enqueued in Hlen. cbn [length] in Hlen.
      rewrite enqueued_app. eexists; split; [reflexivity|].
      cbn [length app]. rewrite Hlen. unfold room in *. lia.
    + cbn in H. injection H as <- <-. exists [].
      rewrite enqueued_nil, world_eta. split; [reflexivity|].
      cbn [length]. unfold room. lia.
Qed.

(** A write call on an open endpoint queues what it offers, as far as there
    is room. *)
Lemma perform_write c w :
  wf (self w) -> closed (self w) = false -> write_ok c ->
  perform c w =
    Done tt (mkWorld (enqueued (firstn (room (self w)) (written c)) (self w))
                     (delivered w)).
Proof.
  intros [Hc [Hfit Hcap]] Hopen Hok.
  pose proof (consistent_writer _ Hc) as Hw.
  assert (Hcl : chan_closed (ch (self w)) = false)
    by (destruct Hc as [_ Hch]; congruence).
  destruct c; cbn [write_ok] in Hok; try contradiction;
    cbn [perform written]; unfold bind.
  - rewrite WritePacket_eq, Hopen, Hcl by assumption.
    destruct (Nat.ltb_spec (length (chan_buf (ch (self w)))) (chan_cap (ch (self w))))
      as [Hlt|Hge].
    + replace (room (self w)) with (S (room (self w) - 1)) by (unfold room; lia).
      cbn [firstn]. now rewrite firstn_nil.
    + replace (room (self w)) with O by (unfold room; lia).
      cbn. now rewrite enqueued_nil, world_eta.
  - destruct Hok as [Hv Hb].
    rewrite WritePackets_eq, Hopen by assumption.
    rewrite packetLoop_in_bounds; try assumption.
    + change (room (self (rlocked w))) with (room (self w)).
      change (delivered (rlocked w)) with (delivered w).
      rewrite runlocked_rlocked by assumption.
      now rewrite firstn_min, firstn_map.
    + now apply Forall_firstn.
    + lia.
    + change (room (self (rlocked w))) with (room (self w)). unfold room. lia.
  - rewrite WriteRawPacket_eq, Hopen, Hcl by assumption.
    destruct (Nat.ltb_spec (length (chan_buf (ch (self w)))) (chan_cap (ch (self w))))
      as [Hlt|Hge].
    + replace (room (self w)) with (S (room (self w) - 1)) by (unfold room; lia).
      cbn [firstn]. now rewrite firstn_nil.
    + replace (room (self w)) with O by (unfold room; lia).
      cbn. now rewrite enqueued_nil, world_eta.
Qed.

(** X7: WritePacket, WritePackets and WriteRawPacket calls made one after
    the other on an open endpoint queue their records in the order of the
    calls, behind what was queued; when the queue is full the remaining
    records are dropped, so the queue grows by the first [room] of the
    records offered. *)
Theorem writes_queue_in_call_order :
  forall cs w,
    wf (self w) -> closed (self w) = false -> Forall write_ok cs ->
    perform_all cs w =
      Done tt
        (mkWorld (enqueued (firstn (room (self w)) (flat_map written cs)) (self w))
                 (delivered w)).
Proof.
  induction cs as [|c cs IH]; intros w Hwf Hopen Hok.
  - cbn. now rewrite firstn_nil, enqueued_nil, world_eta.
  - inversion Hok as [|? ? Hc Hcs]; subst.
    cbn [perform_all flat_map]. unfold bind.
    rewrite perform_write by assumption.
    rewrite IH; cbn [self delivered]; try assumption.
    + rewrite room_enqueued, enqueued_app, firstn_app, length_firstn.
      replace (room (self w) - Nat.min (room (self w)) (length (written c)))%nat
        with (room (self w) - length (written c))%nat by lia.
      reflexivity.
    + apply wf_enqueued; [assumption|]. rewrite length_firstn. lia.
Qed.

(** X8: WritePackets over descriptors that lie within the payload queues a
    record for each of the first [min K room] descriptors, in order, and
    returns that number and no error; with room for all [K] it queues them
    all. *)
Theorem WritePackets_queues_what_fits :
  forall w r gso hdrs payload protocol,
    wf (self w) -> closed (self w) = false ->
    Z.of_nat (length (ToView payload)) <= max_int ->
    Forall (in_bounds (ToView payload)) hdrs ->
    WritePackets r gso hdrs payload protocol w =
      Done (Z.of_nat (Nat.min (length hdrs) (room (self w))), None)
        (mkWorld
           (enqueued (map (record_of gso (ToView payload) protocol)
                          (firstn (room (self w)) hdrs))
                     (self w))
           (delivered w)) /\
    ((length hdrs <= room (self w))%nat ->
     WritePackets r gso hdrs payload protocol w =
       Done (Z.of_nat (length hdrs), None)
         (mkWorld
            (enqueued (map (record_of gso (ToView payload) protocol) hdrs)
                      (self w))
            (delivered w))).
Proof.
  intros w r gso hdrs payload protocol [Hc [Hfit Hcap]] Hopen Hv Hb.
  pose proof (consistent_writer _ Hc) as Hw.
  assert (Hrun : WritePackets r gso hdrs payload protocol w =
      Done (Z.of_nat (Nat.min (length hdrs) (room (self w))), None)
        (mkWorld
           (enqueued (map (record_of gso (ToView payload) protocol)
                          (firstn (room (self w)) hdrs))
                     (self w))
           (delivered w))).
  { rewrite WritePackets_eq, Hopen by assumption.
    rewrite packetLoop_in_bounds; try assumption.
    - change (room (self (rlocked w))) with (room (self w)).
      change (delivered (rlocked w)) with (delivered w).
      rewrite runlocked_rlocked by assumption.
      now rewrite firstn_min.
    - destruct Hc as [_ Hch]. cbn. congruence.
    - now apply Forall_firstn.
    - lia.
    - change (room (self (rlocked w))) with (room (self w)). unfold room. lia. }
  split; [exact Hrun|].
  intros Hall. rewrite Hrun, Nat.min_l by assumption.
  now rewrite firstn_all2 by assumption.
Qed.

(** X9: whatever the descriptors, a WritePackets call that returns on an
    open endpoint returns no error and the count [min K room], and has
    queued exactly that many records and changed nothing else: the count is
    the number of records queued. *)
Theorem WritePackets_count_is_queued :
  forall w r gso hdrs payload protocol n err w',
    wf (self w) -> closed (self w) = false ->
    WritePackets r gso hdrs payload protocol w = Done (n, err) w' ->
    err = None /\
    n = Z.of_nat (Nat.min (length hdrs) (room (self w))) /\
    exists ps,
      Z.of_nat (length ps) = n /\
      w' = mkWorld (enqueued ps (self w)) (delivered w).
Proof.
  intros w r gso hdrs payload protocol n err w' [Hc [Hfit Hcap]] Hopen H.
  pose proof (consistent_writer _ Hc) as Hw.
  rewrite WritePackets_eq, Hopen in H by assumption.
  destruct (packetLoop _ _ _ _ _ _) as [n1 w1| | |] eqn:E; try discriminate.
  injection H as <- <- <-.
  pose proof (packetLoop_count _ _ _ _ _ _ _ _ E) as (ps & -> & Hlen).
  apply packetLoop_Done in E;
    [|lia|change (room (self (rlocked w))) with (room (self w)); unfold room; lia].
  destruct E as [-> _].
  change (room (self (rlocked w))) with (room (self w)) in *.
  change (delivered (rlocked w)) with (delivered w).
  split; [reflexivity|]. split; [lia|].
  exists ps. split; [lia|]. now rewrite runlocked_rlocked.
Qed.

(** X10: a descriptor with a negative Size makes WritePackets on an open
    endpoint panic at the slice expression, also when its Off and
    Off + Size lie within the payload. *)
Theorem WritePackets_negative_size_panics :
  forall w r gso hdr hdrs payload protocol,
    writer (mu (self w)) = false -> closed (self w) = false ->
    in_int (Off hdr) -> in_int (Size hdr) -> Size hdr < 0 ->
    WritePackets r gso (hdr :: hdrs) payload protocol w =
      Panicked "slice bounds out of range".
Proof.
  intros w r gso hdr hdrs payload protocol Hw Hopen [Ho1 Ho2] [Hs1 Hs2] Hneg.
  rewrite WritePackets_eq, Hopen by assumption.
  cbn [packetLoop]. rewrite slice_None; [reflexivity|].
  destruct (Z_lt_le_dec (Off hdr) 0) as [Hoff|Hoff]; [now left|].
  right. left. rewrite wrap_int_id; [lia|]. unfold in_int. lia.
Qed.

(** ** Calls on the dispatcher *)

Lemma silent_ret A (a : A) : silent (ret a).
Proof. intros w a' w' H. now injection H as _ <-. Qed.

Lemma silent_bind A B (m : M A) (k : A -> M B) :
  silent m -> (forall a, silent (k a)) -> silent (bind m k).
Proof.
  intros Hm Hk w b w' H. unfold bind in H.
  destruct (m w) as [a w1| | |] eqn:E; try discriminate.
  rewrite (Hk _ _ _ _ H). eapply Hm; eassumption.
Qed.

Lemma silent_defer A (cleanup : M unit) (body : M A) :
  silent cleanup -> silent body -> silent (defer cleanup body).
Proof.
  intros Hc Hb. unfold defer.
  apply silent_bind; [assumption|]. intros a.
  apply silent_bind; [assumption|]. intros _. apply silent_ret.
Qed.

Ltac prim_silent :=
  let w := fresh "w" in let a := fresh "a" in let w' := fresh "w'" in
  let H := fresh "H" in
  intros w a w' H; world w; revert H; step_m;
  repeat match goal with
         | |- context [if ?b then _ else _] => destruct b; cbn
         | |- context [match ?x with _ => _ end] => destruct x; cbn
         end;
  intros H; try discriminate; injection H as <- <-; reflexivity.

Lemma silent_get : silent get.
Proof. prim_silent. Qed.

Lemma silent_put e : silent (put e).
Proof. intros w a w' H. unfold put in H. now injection H as _ <-. Qed.

Lemma silent_RLock : silent RLock.
Proof. prim_silent. Qed.

Lemma silent_RUnlock : silent RUnlock.
Proof. prim_silent. Qed.

Lemma silent_Lock : silent Lock.
Proof. prim_silent. Qed.

Lemma silent_Unlock : silent Unlock.
Proof. prim_silent. Qed.

Lemma silent_close_ch : silent close_ch.
Proof. prim_silent. Qed.

Lemma silent_select_send p : silent (select_send p).
Proof. prim_silent. Qed.

Lemma silent_select_recv : silent select_recv.
Proof. prim_silent. Qed.

Lemma silent_recv : silent recv.
Proof. prim_silent. Qed.

Create HintDb silent.
#[local] Hint Resolve silent_ret silent_get silent_put silent_RLock
  silent_RUnlock silent_Lock silent_Unlock silent_close_ch silent_select_send
  silent_select_recv silent_recv : silent.

Ltac quiet :=
  repeat first
    [ solve [auto with silent]
    | apply silent_defer
    | apply silent_bind; [|intro]
    | match goal with
      | |- silent (if ?b then _ else _) => destruct b
      | |- silent (match ?x with _ => _ end) => destruct x
      end
    | progress cbv zeta ].

Lemma silent_Drain_loop fuel : forall c, silent (Drain_loop fuel c).
Proof.
  induction fuel as [|fuel IH]; intros c; [intros w a w' H; discriminate|].
  cbn [Drain_loop]. apply silent_bind; [auto with silent|].
  intros [r|]; auto with silent.
Qed.

Lemma silent_packetLoop gso v protocol hdrs :
  forall n, silent (packetLoop gso v protocol hdrs n).
Proof.
  induction hdrs as [|hdr hdrs IH]; intros n; cbn [packetLoop];
    [auto with silent|].
  destruct (slice v (Off hdr) (wrap_int (Off hdr + Size hdr)));
    [|intros w a w' H; discriminate].
  apply silent_bind; [auto with silent|].
  intros [|]; auto with silent.
Qed.

Lemma silent_perform c : is_inject c = false -> silent (perform c).
Proof.
  destruct c; cbn [is_inject]; try discriminate; intros _; cbn [perform];
    unfold Drain, Read, Close, Attach, WritePacket, WritePackets,
           WriteRawPacket, Wait;
    quiet; solve [apply silent_Drain_loop | apply silent_packetLoop].
Qed.

(** On a closed endpoint no call reaches the dispatcher. *)
Lemma closed_perform_silent c w w' :
  closed (self w) = true -> perform c w = Done tt w' ->
  delivered w' = delivered w.
Proof.
  intros Hcl H. destruct (is_inject c) eqn:Hi;
    [|eapply silent_perform; eassumption].
  assert (Hinj : forall protocol remote pkt,
             InjectLinkAddr protocol remote pkt w = Done tt w' ->
             delivered w' = delivered w).
  { intros protocol remote pkt Hrun.
    destruct (writer (mu (self w))) eqn:Hw.
    - world w. subst. discriminate.
    - rewrite InjectLinkAddr_eq, Hcl in Hrun by assumption.
      now injection Hrun as <-. }
  destruct c; try discriminate; cbn [perform] in H; eapply Hinj; exact H.
Qed.

(** X11: inject calls made one after the other on an open endpoint with
    dispatcher [d] attached all return, make one DeliverNetworkPacket call on
    [d] each, in the order of the calls and with the arguments of each, and
    leave the endpoint as it was. *)
Theorem injects_deliver_one_each_in_order :
  forall cs w d,
    writer (mu (self w)) = false -> closed (self w) = false ->
    dispatcher (self w) = Some d ->
    Forall (fun c => is_inject c = true) cs ->
    perform_all cs w =
      Done tt
        (mkWorld (self w)
           (delivered w ++ flat_map (delivery_of d (self (rlocked w))) cs)) /\
    length (flat_map (delivery_of d (self (rlocked w))) cs) = length cs.
Proof.
  induction cs as [|c cs IH]; intros w d Hw Hopen Hd Hcs.
  - cbn. now rewrite app_nil_r, world_eta.
  - inversion Hcs as [|? ? Hc Hrest]; subst.
    cbn [perform_all flat_map]. unfold bind. rewrite length_app.
    assert (Hone : perform c w =
                     Done tt (mkWorld (self w)
                                (delivered w ++ delivery_of d (self (rlocked w)) c)) /\
                   length (delivery_of d (self (rlocked w)) c) = 1%nat).
    { destruct c; try discriminate; cbn [perform delivery_of];
        unfold InjectInbound; rewrite InjectLinkAddr_eq, Hopen, Hd by assumption;
        split; reflexivity. }
    destruct Hone as [-> Hlen].
    destruct (IH (mkWorld (self w)
                    (delivered w ++ delivery_of d (self (rlocked w)) c)) d)
      as [Hrun Hcount]; try assumption.
    rewrite Hrun. cbn [self delivered]. rewrite <- app_assoc.
    split; [reflexivity|].
    change (self (rlocked
                    {| self := self w;
                       delivered := delivered w ++ delivery_of d (self (rlocked w)) c |}))
      with (self (rlocked w)) in Hcount.
    rewrite Hlen, Hcount. reflexivity.
Qed.

(** X12: only the inject calls reach the dispatcher, and only while the
    endpoint is open: calls of the other methods never call it, and on a
    closed endpoint no call does. *)
Theorem dispatcher_called_only_by_open_inject :
  forall cs w w',
    perform_all cs w = Done tt w' ->
    Forall (fun c => is_inject c = false) cs \/ closed (self w) = true ->
    delivered w' = delivered w.
Proof.
  induction cs as [|c cs IH]; intros w w' H Hor; cbn [perform_all] in H.
  - now injection H as <-.
  - unfold bind in H. destruct (perform c w) as [[] w1| | |] eqn:E;
      try discriminate.
    destruct Hor as [Hcs|Hcl].
    + inversion Hcs as [|? ? Hc Hrest]; subst.
      rewrite (IH _ _ H (or_introl Hrest)).
      eapply silent_perform; eassumption.
    + assert (Hcl1 : closed (self w1) = true)
        by (apply (preserves_perform c w tt w1 E); exact Hcl).
      rewrite (IH _ _ H (or_intror Hcl1)).
      eapply closed_perform_silent; eassumption.
Qed.

(** X13: Attach replaces the dispatcher: after Attach(d) the endpoint is
    attached and an inject on the open endpoint calls [d], whatever was
    attached before; after Attach(nil) it is not attached and an inject on
    the open endpoint panics. *)
Theorem Attach_replaces_dispatcher :
  forall w protocol remote pkt,
    writer (mu (self w)) = false -> closed (self w) = false ->
    (forall d,
        (Attach (Some d) ;;; e <- get ;; ret (IsAttached e)) w =
          Done true (mkWorld (set_dispatcher (Some d) (self w)) (delivered w)) /\
        (Attach (Some d) ;;; InjectLinkAddr protocol remote pkt) w =
          Done tt
            (mkWorld (set_dispatcher (Some d) (self w))
               (delivered w ++
                [mkDeliverCall d (set_dispatcher (Some d) (self (rlocked w)))
                               remote "" protocol pkt]))) /\
    (Attach None ;;; e <- get ;; ret (IsAttached e)) w =
      Done false (mkWorld (set_dispatcher None (self w)) (delivered w)) /\
    (Attach None ;;; InjectLinkAddr protocol remote pkt) w =
      Panicked "invalid memory address or nil pointer dereference".
Proof.
  intros w protocol remote pkt Hw Hopen.
  assert (HAttach : forall d,
             Attach d w = Done tt (mkWorld (set_dispatcher d (self w)) (delivered w)))
    by reflexivity.
  repeat split; unfold bind at 1; rewrite HAttach; try reflexivity;
    rewrite InjectLinkAddr_eq by exact Hw; cbn [self closed set_dispatcher];
    rewrite Hopen; reflexivity.
Qed.

(** ** Dropping ends when the reader catches up *)

(** X14: Drain frees the whole queue: after a Drain on an open endpoint, as
    many writes as the capacity are all queued, and reading them back
    returns one record per write, in order. *)
Theorem Drain_frees_the_queue :
  forall w fuel args,
    wf (self w) -> closed (self w) = false ->
    (length (chan_buf (ch (self w))) < fuel)%nat ->
    (length args <= chan_cap (ch (self w)))%nat ->
    (Drain fuel ;;; write_all args ;;; read_all (length args)) w =
      Done (map (fun a => read_ok (info_of a)) args)
           (mkWorld (emptied (self w)) (delivered w)).
Proof.
  intros w fuel args [Hc [Hfit Hcap]] Hopen Hfuel Hlen.
  assert (Hcl : chan_closed (ch (self w)) = false)
    by (destruct Hc as [_ Hch]; congruence).
  unfold bind at 1, Drain. rewrite Drain_loop_open by (assumption || lia).
  unfold bind. rewrite write_all_open;
    [|now apply consistent_emptied|exact Hopen].
  cbn [self delivered].
  replace (room (emptied (self w))) with (chan_cap (ch (self w)))
    by (unfold room; cbn; lia).
  rewrite Nat.min_l, firstn_all by assumption.
  rewrite read_all_firstn; cbn [self delivered enqueued emptied set_ch set_buf
                                ch chan_buf app];
    rewrite ?length_map; [|lia].
  replace (length args) with (length (map info_of args)) at 1 2
    by apply length_map.
  now rewrite firstn_all, skipn_all, map_map.
Qed.

(** X15: a write on a full queue is dropped, and a Read makes room for the
    next one: on an open endpoint with a full queue [p :: rest], a
    WritePacket, a Read and a second WritePacket return no error, the head
    [p] and no error, and leave [rest] followed by the record of the second
    write. *)
Theorem Read_makes_room_for_a_write :
  forall w p rest a b,
    consistent (self w) -> closed (self w) = false ->
    chan_buf (ch (self w)) = p :: rest ->
    length (p :: rest) = chan_cap (ch (self w)) ->
    (e1 <- WritePacket (arg_route a) (arg_gso a) (arg_protocol a) (arg_pkt a) ;;
     x <- Read ;;
     e2 <- WritePacket (arg_route b) (arg_gso b) (arg_protocol b) (arg_pkt b) ;;
     ret (e1, x, e2)) w =
      Done (None, read_ok p, None)
           (mkWorld (with_queue (rest ++ [info_of b]) (self w)) (delivered w)).
Proof.
  intros w p rest a b Hc Hopen Hbuf Hfull.
  pose proof (consistent_writer _ Hc) as Hw. destruct Hc as [_ Hch].
  unfold bind at 1.
  rewrite WritePacket_eq, Hopen, Hch, Hopen, Hbuf, Hfull, Nat.ltb_irrefl
    by assumption.
  unfold bind at 1. rewrite Read_eq, Hbuf.
  unfold bind at 1. rewrite WritePacket_eq by exact Hw.
  cbn [self delivered closed ch chan_closed chan_buf chan_cap set_ch set_buf].
  rewrite Hopen, Hch, Hopen.
  assert (Hlt : (length rest <? chan_cap (ch (self w)))%nat = true)
    by (apply Nat.ltb_lt; cbn in Hfull; lia).
  rewrite Hlt. reflexivity.
Qed.

End Channel.



(** * The properties at sample inputs *)

Ltac sample_wf :=
  unfold wf, consistent, bounded; cbn;
  repeat split; try reflexivity; try lia; try (vm_compute; discriminate).

Ltac sample_Forall :=
  cbv [firstn app sample_hdrs sample_bad_hdr];
  repeat (apply Forall_cons || apply Forall_nil);
  unfold in_bounds, in_int; cbn;
  repeat split; try lia; try (vm_compute; discriminate).

Lemma closed_endpoint_rejects_writes_witness :
  let w0 : @World unit unit unit := sample_world 2 [] false None in
  let w := sample_world 2 [sample_info tt] true None in
  New 2 1500 "AA:BB" = Done tt w0 /\
  perform_all tt no_spare
    ([CallWritePacket (None : option unit) None 2048 (sample_pkt tt)] ++
     CallClose :: [CallAttach None]) w0 = Done tt w /\
  WriteRawPacket tt sample_payload w = Done (Some ErrBadLinkEndpoint) w.
Proof.
  cbv zeta. split; [reflexivity|]. split; [reflexivity|].
  apply (closed_endpoint_rejects_writes tt no_spare 2 1500 "AA:BB"
           (sample_world 2 [] false None)
           [CallWritePacket (None : option unit) None 2048 (sample_pkt tt)]
           [CallAttach None]
           (sample_world 2 [sample_info tt] true None)
           eq_refl eq_refl).
Defined.

Lemma WritePackets_partial_batch_witness :
  let w : @World unit unit unit := sample_world 2 [] false None in
  WritePackets no_spare (None : option unit) None
      (sample_hdrs tt ++ [sample_bad_hdr tt]) sample_payload 2048 w =
    Done (2, None)
      (sample_world 2
         [ mkPacketInfo (mkPacketBuffer (mkVectorisedView [[Byte.x01]] 1) tt)
                        2048 None;
           mkPacketInfo (mkPacketBuffer
                           (mkVectorisedView [[Byte.x02; Byte.x03]] 2) tt)
                        2048 None ]
         false None).
Proof.
  cbv zeta.
  apply (WritePackets_partial_batch (Route := unit) no_spare
           (sample_world 2 [] false None) None None
           (sample_hdrs tt ++ [sample_bad_hdr tt]) sample_payload 2048 2).
  - sample_wf.
  - reflexivity.
  - vm_compute; discriminate.
  - reflexivity.
  - cbn; lia.
  - sample_Forall.
Defined.

Lemma full_queue_drops_silently_witness :
  let w : @World unit unit unit := sample_world 1 [sample_info tt] false None in
  let w' : @World unit unit unit := sample_world 1 [] true None in
  WritePacket (None : option unit) None 2048 (sample_pkt tt) w = Done None w /\
  WriteRawPacket tt sample_payload w = Done None w /\
  closed (self w') = true.
Proof.
  cbv zeta.
  pose proof (@full_queue_drops_silently unit unit unit unit tt) as [Hfull Honly].
  destruct (Hfull (sample_world 1 [sample_info tt] false None))
    as [Hwrite Hraw]; [sample_wf|reflexivity|reflexivity|].
  split; [apply Hwrite|]. split; [apply Hraw|].
  apply (proj2 (Honly (sample_world 1 [] true None) ErrBadLinkEndpoint
                      (sample_world 1 [] true None))
               sample_payload).
  reflexivity.
Defined.

Lemma Drain_counts_writes_witness :
  let w0 : @World unit unit unit := sample_world 2 [] false None in
  New 2 1500 "AA:BB" = Done tt w0 /\
  exists w1 w2 : @World unit unit unit,
    write_all (sample_writes (Route := unit) tt) w0 =
      Done [None; None; None] w1 /\
    (3 <= 2 -> Drain 3 w1 = Done 3 w2) /\
    (3 > 2 -> Drain 3 w1 = Done 2 w2).
Proof.
  cbv zeta. split; [reflexivity|].
  apply (Drain_counts_writes 2 1500 "AA:BB" (sample_world 2 [] false None)
           (sample_writes (Route := unit) tt) 3 eq_refl).
  - vm_compute; discriminate.
  - vm_compute; lia.
Defined.

Lemma Capabilities_GSO_counterexample :
  let w0 : @World unit unit unit := sample_world 1 [] false None in
  let w1 : @World unit unit unit :=
    mkWorld (set_GSO true (self (sample_world 1 [] false None))) [] in
  New 1 1500 "AA:BB" = Done tt w0 /\
  AssignGSO true w0 = Done tt w1 /\
  ~ (has_capability (Capabilities 128 (self w1)) 128 = true <->
     GSO (self w0) = true).
Proof.
  cbv zeta. split; [reflexivity|]. split; [reflexivity|].
  intros [Hto _]. specialize (Hto eq_refl). discriminate Hto.
Defined.

Lemma Capabilities_mirrors_GSO_field_witness :
  let w0 : @World unit unit unit := sample_world 2 [] false None in
  let w : @World unit unit unit :=
    mkWorld (set_GSO true (self (sample_world 2 [sample_info tt] true None))) [] in
  let w' : @World unit unit unit := sample_world 2 [sample_info tt] false None in
  (GSO (self w) = true /\
   (has_capability (Capabilities 128 (self w)) 128 = true <->
    GSO (self w) = true)) /\
  (GSO (self w') = false /\
   (has_capability (Capabilities 128 (self w')) 128 = true <->
    GSO (self w') = true)).
Proof.
  cbv zeta. split.
  - pose proof (@Capabilities_mirrors_GSO_field unit unit unit unit tt 128 no_spare
                  ltac:(discriminate) 2 1500 "AA:BB"
                  (sample_world 2 [] false None)
                  [StepAssignGSO true;
                   StepCall (CallWritePacket None None 2048 (sample_pkt tt));
                   StepAssignGSO false;
                   StepAssignGSO true;
                   StepCall CallClose]
                  (mkWorld
                     (set_GSO true
                        (self (sample_world 2 [sample_info tt] true None))) [])
                  eq_refl eq_refl) as (Hfield & Hbit & _).
    split; [exact Hfield|exact Hbit].
  - pose proof (@Capabilities_mirrors_GSO_field unit unit unit unit tt 128 no_spare
                  ltac:(discriminate) 2 1500 "AA:BB"
                  (sample_world 2 [] false None)
                  [StepCall (CallWritePacket None None 2048 (sample_pkt tt))]
                  (sample_world 2 [sample_info tt] false None)
                  eq_refl eq_refl) as (Hfield & Hbit & _).
    split; [exact Hfield|exact Hbit].
Defined.

Lemma Close_is_monotonic_witness :
  let w : @World unit unit unit := sample_world 2 [sample_info tt] false None in
  let w' := sample_world 2 [sample_info tt] true None in
  Close w = Done tt w' /\ Close w' = Done tt w'.
Proof.
  cbv zeta.
  pose proof (@Close_is_monotonic unit unit unit unit tt no_spare) as (Hfirst & Hlater & _).
  split.
  - apply (Hfirst (sample_world 2 [sample_info tt] false None));
      [sample_wf|reflexivity].
  - apply (Hlater (sample_world 2 [sample_info tt] true None));
      [sample_wf|reflexivity].
Defined.

Lemma InjectInbound_delivers_witness :
  let w : @World unit unit unit := sample_world 2 [] false (Some tt) in
  let w' : @World unit unit unit := sample_world 2 [] true (Some tt) in
  InjectInbound 2048 (sample_pkt tt) w =
    Done tt (mkWorld (self w)
               [mkDeliverCall tt (self (rlocked w)) "" "" 2048 (sample_pkt tt)]) /\
  InjectInbound 2048 (sample_pkt tt) w' = Done tt w'.
Proof.
  cbv zeta.
  pose proof (@InjectInbound_delivers unit unit unit) as (Hsame & Hopen & Hclosed).
  rewrite !Hsame. split.
  - apply (Hopen (sample_world 2 [] false (Some tt)) tt); reflexivity.
  - apply (Hclosed (sample_world 2 [] true (Some tt))); reflexivity.
Defined.

Lemma WritePackets_slice_counterexample :
  let w : @World unit unit unit := sample_world 2 [] false None in
  (WritePackets no_spare (None : option unit) None
       (sample_hdrs tt ++ [sample_bad_hdr tt]) sample_payload 2048 w =
     Done (2, None)
       (sample_world 2
          (map (record_of None (ToView sample_payload) 2048)
               (firstn 2 (sample_hdrs tt)))
          false None) /\
   ~ Forall (within_len sample_payload)
            (sample_hdrs tt ++ [sample_bad_hdr tt])) /\
  (Forall (within_len sample_payload) [sample_negative_hdr tt] /\
   WritePackets no_spare (None : option unit) None
       [sample_negative_hdr tt] sample_payload 2048 w =
     Panicked "slice bounds out of range").
Proof.
  cbv zeta. split; split.
  - reflexivity.
  - intros H. do 3 apply Forall_inv_tail in H. apply Forall_inv in H.
    destruct H as [_ H]. cbn in H. lia.
  - apply Forall_cons; [|apply Forall_nil]. unfold within_len. cbn. lia.
  - reflexivity.
Defined.

Lemma WritePackets_slice_precondition_witness :
  let w : @World unit unit unit := sample_world 2 [] false None in
  (exists w',
      WritePackets two_spare (None : option unit) None
          [sample_bad_hdr tt] sample_payload 2048 w = Done (1, None) w') /\
  WritePackets no_spare (None : option unit) None
      [sample_bad_hdr tt] sample_payload 2048 w =
    Panicked "slice bounds out of range".
Proof.
  cbv zeta. split.
  - apply (proj1 (WritePackets_slice_precondition (Route := unit) two_spare
                    (sample_world 2 [] false None) None None
                    [sample_bad_hdr tt] sample_payload 2048
                    ltac:(sample_wf) eq_refl
                    ltac:(vm_compute; discriminate)
                    ltac:(unfold ints; sample_Forall))).
    apply Forall_cons; [|apply Forall_nil].
    unfold within_cap, cap_of. cbn. lia.
  - apply (proj2 (WritePackets_slice_precondition (Route := unit) no_spare
                    (sample_world 2 [] false None) None None
                    [sample_bad_hdr tt] sample_payload 2048
                    ltac:(sample_wf) eq_refl
                    ltac:(vm_compute; discriminate)
                    ltac:(unfold ints; sample_Forall))).
    apply Exists_cons_hd. unfold outside_cap, cap_of. cbn. lia.
Defined.

Lemma Inject_needs_dispatcher_witness :
  let w : @World unit unit unit := sample_world 2 [] false None in
  let w' : @World unit unit unit := sample_world 2 [] true None in
  InjectInbound 2048 (sample_pkt tt) w =
    Panicked "invalid memory address or nil pointer dereference" /\
  InjectLinkAddr 2048 "02:00" (sample_pkt tt) w' = Done tt w'.
Proof.
  cbv zeta.
  pose proof (@Inject_needs_dispatcher unit unit unit
                (sample_world 2 [] false None) 2048 "02:00"
                (sample_pkt tt) eq_refl) as [Hopen _].
  pose proof (@Inject_needs_dispatcher unit unit unit
                (sample_world 2 [] true None) 2048 "02:00"
                (sample_pkt tt) eq_refl) as [_ Hclosed].
  split.
  - apply Hopen; reflexivity.
  - apply Hclosed. reflexivity.
Defined.

(** * The further properties at sample inputs *)

Lemma calls_keep_endpoint_well_formed_witness :
  let w0 : @World unit unit unit := sample_world 2 [] false None in
  let w : @World unit unit unit :=
    sample_world 2 [sample_info tt; sample_info tt] true None in
  New 2 1500 "AA:BB" = Done tt w0 /\
  mu (self w) = mkRWMutex false O /\
  chan_closed (ch (self w)) = closed (self w) /\
  (length (chan_buf (ch (self w))) <= Z.to_nat 2)%nat.
Proof.
  cbv zeta. split; [reflexivity|].
  apply (calls_keep_endpoint_well_formed tt no_spare 2 1500 "AA:BB"
           (sample_world 2 [] false None)
           [CallWritePacket (None : option unit) None 2048 (sample_pkt tt);
            CallWritePacket None None 2048 (sample_pkt tt);
            CallWritePacket None None 2048 (sample_pkt tt);
            CallClose]
           (sample_world 2 [sample_info tt; sample_info tt] true None)
           eq_refl eq_refl).
Defined.

Lemma constructor_values_stay_witness :
  let w : @World unit unit unit :=
    sample_world 2 [sample_info tt] true (Some tt) in
  MTU (self w) = 1500 /\ LinkAddress_of (self w) = "AA:BB" /\
  chan_cap (ch (self w)) = Z.to_nat 2.
Proof.
  cbv zeta.
  apply (constructor_values_stay tt no_spare 2 1500 "AA:BB"
           (sample_world 2 [] false None)
           [CallAttach (Some tt);
            CallWritePacket (None : option unit) None 2048 (sample_pkt tt);
            CallClose]
           (sample_world 2 [sample_info tt] true (Some tt))
           eq_refl eq_refl).
Defined.

Lemma Read_takes_queue_in_order_witness :
  let w : @World unit unit unit :=
    sample_world 3 [sample_info tt; raw_info tt sample_payload] true None in
  let w' : @World unit unit unit :=
    sample_world 3 [sample_info tt; raw_info tt sample_payload] false None in
  read_all 1 w =
    Done [read_ok (sample_info tt)]
         (sample_world 3 [raw_info tt sample_payload] true None) /\
  read_all 3 w' = Blocked.
Proof.
  cbv zeta. split.
  - apply (proj1 (Read_takes_queue_in_order
                    (sample_world 3 [sample_info tt; raw_info tt sample_payload]
                                  true None) 1)).
    cbn; lia.
  - apply (proj2 (Read_takes_queue_in_order
                    (sample_world 3 [sample_info tt; raw_info tt sample_payload]
                                  false None) 3)).
    + reflexivity.
    + cbn; lia.
Defined.

Lemma closed_stream_ends_after_queue_witness :
  let w : @World unit unit unit :=
    sample_world 3 [sample_info tt; raw_info tt sample_payload] true None in
  read_all 4 w =
    Done [read_ok (sample_info tt); read_ok (raw_info tt sample_payload);
          read_eof; read_eof]
         (sample_world 3 [] true None).
Proof.
  cbv zeta.
  apply (closed_stream_ends_after_queue
           (sample_world 3 [sample_info tt; raw_info tt sample_payload] true None)
           2 eq_refl).
Defined.

Lemma Drain_counts_and_empties_witness :
  let w : @World unit unit unit :=
    sample_world 2 [sample_info tt; raw_info tt sample_payload] false (Some tt) in
  let w' : @World unit unit unit := sample_world 2 [] false (Some tt) in
  Drain 3 w = Done 2 w' /\ Drain 3 w' = Done 0 w'.
Proof.
  cbv zeta.
  apply (Drain_counts_and_empties
           (sample_world 2 [sample_info tt; raw_info tt sample_payload]
                         false (Some tt)) 3).
  - sample_wf.
  - reflexivity.
  - cbn; lia.
Defined.

Lemma write_then_read_round_trip_witness :
  let w : @World unit unit unit :=
    sample_world 3 [raw_info tt sample_payload] false None in
  bind (write_all [mkWriteArgs (None : option unit) None 2048 (sample_pkt tt);
                   mkWriteArgs None None 2054 (sample_pkt tt)])
       (fun _ => read_all 3) w =
    Done [read_ok (raw_info tt sample_payload);
          read_ok (mkPacketInfo (sample_pkt tt) 2048 None);
          read_ok (mkPacketInfo (sample_pkt tt) 2054 None)]
         (sample_world 3 [] false None).
Proof.
  cbv zeta.
  apply (write_then_read_round_trip
           (sample_world 3 [raw_info tt sample_payload] false None)
           [mkWriteArgs (None : option unit) None 2048 (sample_pkt tt);
            mkWriteArgs None None 2054 (sample_pkt tt)]).
  - split; reflexivity.
  - reflexivity.
  - cbn; lia.
Defined.

Lemma writes_queue_in_call_order_witness :
  let w : @World unit unit unit := sample_world 3 [] false None in
  perform_all tt no_spare
    [CallWritePacket (None : option unit) None 2048 (sample_pkt tt);
     CallWritePackets None None (sample_hdrs tt) sample_payload 2054;
     CallWriteRawPacket sample_payload] w =
    Done tt
      (sample_world 3
         [ sample_info tt;
           mkPacketInfo (mkPacketBuffer (mkVectorisedView [[Byte.x01]] 1) tt)
                        2054 None;
           mkPacketInfo (mkPacketBuffer
                           (mkVectorisedView [[Byte.x02; Byte.x03]] 2) tt)
                        2054 None ]
         false None).
Proof.
  cbv zeta.
  apply (writes_queue_in_call_order tt no_spare
           [CallWritePacket (None : option unit) None 2048 (sample_pkt tt);
            CallWritePackets None None (sample_hdrs tt) sample_payload 2054;
            CallWriteRawPacket sample_payload]
           (sample_world 3 [] false None)).
  - sample_wf.
  - reflexivity.
  - repeat (apply Forall_cons || apply Forall_nil); cbn [write_ok];
      try exact I.
    split; [vm_compute; discriminate|sample_Forall].
Defined.

Lemma WritePackets_queues_what_fits_witness :
  let w : @World unit unit unit := sample_world 4 [sample_info tt] false None in
  WritePackets no_spare (None : option unit) None (sample_hdrs tt) sample_payload 2054 w =
    Done (3, None)
      (sample_world 4
         [ sample_info tt;
           mkPacketInfo (mkPacketBuffer (mkVectorisedView [[Byte.x01]] 1) tt)
                        2054 None;
           mkPacketInfo (mkPacketBuffer
                           (mkVectorisedView [[Byte.x02; Byte.x03]] 2) tt)
                        2054 None;
           mkPacketInfo (mkPacketBuffer (mkVectorisedView [[Byte.x04]] 1) tt)
                        2054 None ]
         false None).
Proof.
  cbv zeta.
  apply (proj2 (WritePackets_queues_what_fits (Route := unit) no_spare
                  (sample_world 4 [sample_info tt] false None) None None
                  (sample_hdrs tt) sample_payload 2054
                  ltac:(sample_wf) eq_refl
                  ltac:(vm_compute; discriminate) ltac:(sample_Forall))).
  cbn; lia.
Defined.

Lemma WritePackets_count_is_queued_witness :
  let w : @World unit unit unit := sample_world 2 [sample_info tt] false None in
  (None : option Error) = None /\
  1 = Z.of_nat (Nat.min 4 (room (self w))) /\
  exists ps,
    Z.of_nat (length ps) = 1 /\
    sample_world 2
      [ sample_info tt;
        mkPacketInfo (mkPacketBuffer (mkVectorisedView [[Byte.x01]] 1) tt)
                     2054 None ]
      false None =
    mkWorld (enqueued ps (self w)) (delivered w).
Proof.
  cbv zeta.
  apply (WritePackets_count_is_queued (Route := unit) no_spare
           (sample_world 2 [sample_info tt] false None) None None
           (sample_hdrs tt ++ [sample_bad_hdr tt]) sample_payload 2054
           1 None
           (sample_world 2
              [ sample_info tt;
                mkPacketInfo (mkPacketBuffer (mkVectorisedView [[Byte.x01]] 1) tt)
                             2054 None ]
              false None)).
  - sample_wf.
  - reflexivity.
  - reflexivity.
Defined.

Lemma WritePackets_negative_size_panics_witness :
  let w : @World unit unit unit := sample_world 2 [] false None in
  WritePackets no_spare (None : option unit) None
      [mkPacketDescriptor tt 2 (-1)] sample_payload 2048 w =
    Panicked "slice bounds out of range".
Proof.
  cbv zeta.
  apply (WritePackets_negative_size_panics (Route := unit) no_spare
           (sample_world 2 [] false None) None None
           (mkPacketDescriptor tt 2 (-1)) [] sample_payload 2048);
    try reflexivity; unfold in_int; cbn;
    try (split; vm_compute; discriminate).
Defined.

Lemma injects_deliver_one_each_in_order_witness :
  let w : @World unit unit unit := sample_world 2 [] false (Some tt) in
  perform_all (Route := unit) tt no_spare
    [CallInjectInbound 2048 (sample_pkt tt);
     CallInjectLinkAddr 2054 "02:00" (sample_pkt tt)] w =
    Done tt
      (mkWorld (self w)
         [mkDeliverCall tt (self (rlocked w)) "" "" 2048 (sample_pkt tt);
          mkDeliverCall tt (self (rlocked w)) "02:00" "" 2054 (sample_pkt tt)]).
Proof.
  cbv zeta.
  apply (proj1 (injects_deliver_one_each_in_order (Route := unit) tt no_spare
                  [CallInjectInbound 2048 (sample_pkt tt);
                   CallInjectLinkAddr 2054 "02:00" (sample_pkt tt)]
                  (sample_world 2 [] false (Some tt)) tt
                  eq_refl eq_refl eq_refl
                  ltac:(repeat constructor))).
Defined.

Lemma dispatcher_called_only_by_open_inject_witness :
  let w : @World unit unit unit := sample_world 2 [] false (Some tt) in
  let w' : @World unit unit unit := sample_world 2 [sample_info tt] true (Some tt) in
  (perform_all tt no_spare
     [CallWritePacket (None : option unit) None 2048 (sample_pkt tt); CallClose]
     w = Done tt w' /\
   delivered w' = delivered w) /\
  (perform_all tt no_spare [CallInjectInbound (Route := unit) 2048 (sample_pkt tt)] w' =
     Done tt w' /\
   delivered w' = []).
Proof.
  cbv zeta. split; (split; [reflexivity|]).
  - apply (dispatcher_called_only_by_open_inject tt no_spare
             [CallWritePacket (None : option unit) None 2048 (sample_pkt tt);
              CallClose]
             (sample_world 2 [] false (Some tt))
             (sample_world 2 [sample_info tt] true (Some tt))
             eq_refl).
    left. repeat constructor.
  - apply (dispatcher_called_only_by_open_inject tt no_spare
             [CallInjectInbound (Route := unit) 2048 (sample_pkt tt)]
             (sample_world 2 [sample_info tt] true (Some tt))
             (sample_world 2 [sample_info tt] true (Some tt))
             eq_refl).
    right. reflexivity.
Defined.

Lemma Attach_replaces_dispatcher_witness :
  let w : @World unit unit bool := sample_world 2 [] false (Some false) in
  bind (Attach (Some true))
       (fun _ => InjectLinkAddr 2048 "02:00" (sample_pkt tt)) w =
    Done tt
      (mkWorld (self (sample_world 2 [] false (Some true)))
         [mkDeliverCall true
            (self (rlocked (sample_world 2 [] false (Some true))))
            "02:00" "" 2048 (sample_pkt tt)]) /\
  bind (Attach None)
       (fun _ => InjectLinkAddr 2048 "02:00" (sample_pkt tt)) w =
    Panicked "invalid memory address or nil pointer dereference".
Proof.
  cbv zeta.
  pose proof (@Attach_replaces_dispatcher unit unit bool
                (sample_world 2 [] false (Some false)) 2048 "02:00"
                (sample_pkt tt) eq_refl eq_refl) as (Hsome & _ & Hnone).
  split; [apply (proj2 (Hsome true))|apply Hnone].
Defined.

Lemma Drain_frees_the_queue_witness :
  let w : @World unit unit unit :=
    sample_world 2 [sample_info tt; sample_info tt] false None in
  bind (Drain 3)
       (fun _ =>
          bind (write_all
                  [mkWriteArgs (None : option unit) None 2054 (sample_pkt tt);
                   mkWriteArgs None None 2048 (sample_pkt tt)])
               (fun _ => read_all 2)) w =
    Done [read_ok (mkPacketInfo (sample_pkt tt) 2054 None);
          read_ok (mkPacketInfo (sample_pkt tt) 2048 None)]
         (sample_world 2 [] false None).
Proof.
  cbv zeta.
  apply (Drain_frees_the_queue
           (sample_world 2 [sample_info tt; sample_info tt] false None) 3
           [mkWriteArgs (None : option unit) None 2054 (sample_pkt tt);
            mkWriteArgs None None 2048 (sample_pkt tt)]).
  - sample_wf.
  - reflexivity.
  - cbn; lia.
  - cbn; lia.
Defined.

Lemma Read_makes_room_for_a_write_witness :
  let w : @World unit unit unit :=
    sample_world 2 [sample_info tt; raw_info tt sample_payload] false None in
  bind (WritePacket (None : option unit) None 2054 (sample_pkt tt))
       (fun e1 =>
          bind Read
               (fun x =>
                  bind (WritePacket (None : option unit) None 34525
                                    (sample_pkt tt))
                       (fun e2 => ret (e1, x, e2)))) w =
    Done (None, read_ok (sample_info tt), None)
         (sample_world 2
            [raw_info tt sample_payload;
             mkPacketInfo (sample_pkt tt) 34525 None]
            false None).
Proof.
  cbv zeta.
  apply (Read_makes_room_for_a_write
           (sample_world 2 [sample_info tt; raw_info tt sample_payload] false None)
           (sample_info tt) [raw_info tt sample_payload]
           (mkWriteArgs (None : option unit) None 2054 (sample_pkt tt))
           (mkWriteArgs (None : option unit) None 34525 (sample_pkt tt)));
    try reflexivity.
  split; reflexivity.
Defined.
